(** * Dominator support code of llvm-dominators: DFS engine, test-harness
      driver and CFG helpers, embedded in Rocq.

    Sources embedded here:
    - [include/llvm/IR/NewDominators.h]: the [Verification] mask, the
      comparators [NodeByName] and [DecreasingLevel] and the template
      [NewDomTree::runDFS];
    - [lib/IR/DomSupport.cpp]: [connect], [disconnect],
      [InputGraph::toCFG], [InputGraph::applyUpdate] and
      [InputGraph::readFromFile].

    Conventions.
    - A [Node] (C++ [BasicBlock *]) is a handle into a store of basic
      blocks; [nullptr] is [None] where the code stores it.
    - [unsigned] values are [N] with the wrap-around at [2^32] written out.
    - [DenseMap] is [gmap], [DenseSet] is [gset], [std::vector] and
      [SmallVector] are lists.
    - [llvm_unreachable], a failed [assert] and a failed [cast<>] end the
      program: they are the [Abort] outcome (a build with assertions).
      Behaviour the C++ standard leaves undefined is [Undefined]. *)

From Stdlib Require Import ZArith NArith Ascii String List Lia.
From stdpp Require Import base gmap sets list strings pretty.

Local Open Scope N_scope.

(** ** Machine integers *)

(** [unsigned] is 32 bits wide on every target of the project. *)
Definition UINT_MOD : N := 2 ^ 32.

Definition wrap (n : N) : N := n mod UINT_MOD.

(** [a - b] on [unsigned]. *)
Definition usub (a b : N) : N := (a + UINT_MOD - b mod UINT_MOD) mod UINT_MOD.

(** ** [NewDomTree::Verification] *)

Module Verification.

(** The enumerators of [enum Verification : unsigned], by their values. *)
Definition None : N := 0.
Definition Basic : N := 1.
Definition CFG : N := 2.
Definition Sibling : N := 4.
Definition OldDT : N := 8.
Definition Normal : N := N.lor (N.lor Basic CFG) OldDT.
Definition Full : N := N.lor (N.lor (N.lor Basic CFG) Sibling) OldDT.

End Verification.

(** ** The CFG: basic blocks with switch terminators *)

(** [using Node = BasicBlock *]: a handle of a block. *)
Abbreviation Node := positive.

(** A [SwitchInst]: the default destination and the cases, each a 32-bit
    constant with its successor.  The condition is always the constant 0. *)
Record SwitchInst : Set := mkSwitch {
  DefaultDest : Node;
  Cases : list (N * Node)
}.

(** A [BasicBlock]: its name and its terminator, if it has one.  The only
    terminators the support code creates are switches. *)
Record BasicBlock : Set := mkBB {
  bbName : string;
  bbTerm : option SwitchInst
}.

(** The blocks of the function, by handle. *)
Abbreviation BlockStore := (gmap Node BasicBlock).

(** Successor 0 of a switch is the default destination, successor [i+1]
    is the destination of case [i]. *)
Definition switch_successors (SI : SwitchInst) : list Node :=
  DefaultDest SI :: (snd <$> Cases SI).

Definition term_successors (T : option SwitchInst) : list Node :=
  match T with
  | Some SI => switch_successors SI
  | None => []
  end.

(** [successors(BB)]. *)
Definition successors (F : BlockStore) (BB : Node) : list Node :=
  match F !! BB with
  | Some B => term_successors (bbTerm B)
  | None => []
  end.

(** ** [NewDomTree::runDFS] *)

Record DFSNodeInfo : Set := mkInfo {
  Predecessors : list Node;
  Num : N;
  Parent : option Node
}.

(** What [DenseMap::operator[]] stores for a key it does not hold yet: a
    value-initialised [DFSNodeInfo]. *)
Definition DFSNodeInfo_init : DFSNodeInfo :=
  {| Predecessors := []; Num := 0; Parent := None |}.

Record DFSResult : Set := mkRes {
  nextDFSNum : N;
  numToNode : list Node;
  NodeToInfo : gmap Node DFSNodeInfo
}.

(** [M[K]] read as a value: the stored info, or the fresh one that
    [operator[]] inserts. *)
Definition info_at (M : gmap Node DFSNodeInfo) (K : Node) : DFSNodeInfo :=
  default DFSNodeInfo_init (M !! K).

(** The state of the [while] loop.  [WorkList] has its back at the head
    of the list.  [Sched] is a history variable: the code never reads it;
    it logs every [WorkList.push_back(Succ)] of the loop as the pair
    (scanning node, pushed node), oldest first. *)
Record DFSState : Type := mkSt {
  Res : DFSResult;
  Visited : gset Node;
  WorkList : list Node;
  Sched : list (Node * Node)
}.

Section DFS.

Variable F : BlockStore.
Variable Condition : Node → Node → bool.

(** The body of [for (auto *Succ : reverse(successors(BB)))]. *)
Definition scanSucc (BB : Node) (st : DFSState) (Succ : Node) : DFSState :=
  let M := NodeToInfo (Res st) in
  let SuccInfo := info_at M Succ in
  let Preds :=
    if decide (Succ ≠ BB) then Predecessors SuccInfo ++ [BB]
    else Predecessors SuccInfo in
  if decide (Succ ∉ Visited st) then
    if Condition BB Succ then
      {| Res := {| nextDFSNum := nextDFSNum (Res st);
                   numToNode := numToNode (Res st);
                   NodeToInfo :=
                     <[Succ := {| Predecessors := Preds;
                                  Num := Num SuccInfo;
                                  Parent := Some BB |}]> M |};
         Visited := Visited st;
         WorkList := Succ :: WorkList st;
         Sched := Sched st ++ [(BB, Succ)] |}
    else
      {| Res := {| nextDFSNum := nextDFSNum (Res st);
                   numToNode := numToNode (Res st);
                   NodeToInfo :=
                     <[Succ := {| Predecessors := Preds;
                                  Num := Num SuccInfo;
                                  Parent := Parent SuccInfo |}]> M |};
         Visited := Visited st;
         WorkList := WorkList st;
         Sched := Sched st |}
  else
    {| Res := {| nextDFSNum := nextDFSNum (Res st);
                 numToNode := numToNode (Res st);
                 NodeToInfo :=
                   <[Succ := {| Predecessors := Preds;
                                Num := Num SuccInfo;
                                Parent := Parent SuccInfo |}]> M |};
       Visited := Visited st;
       WorkList := WorkList st;
       Sched := Sched st |}.

(** The part of an iteration before the successor scan: [BB] gets the
    next DFS number, is appended to [numToNode] and marked visited.
    [WL] is the work list after [pop_back]. *)
Definition visit (BB : Node) (WL : list Node) (st : DFSState) : DFSState :=
  let M := NodeToInfo (Res st) in
  let BBInfo := info_at M BB in
  {| Res := {| nextDFSNum := wrap (nextDFSNum (Res st) + 1);
               numToNode := numToNode (Res st) ++ [BB];
               NodeToInfo :=
                 <[BB := {| Predecessors := Predecessors BBInfo;
                            Num := nextDFSNum (Res st);
                            Parent := Parent BBInfo |}]> M |};
     Visited := {[BB]} ∪ Visited st;
     WorkList := WL;
     Sched := Sched st |}.

(** One iteration of [while (!WorkList.empty())]. *)
Definition step (st : DFSState) : DFSState :=
  match WorkList st with
  | [] => st
  | BB :: WL =>
      if decide (BB ∈ Visited st) then
        {| Res := Res st; Visited := Visited st;
           WorkList := WL; Sched := Sched st |}
      else
        foldl (scanSucc BB) (visit BB WL st) (reverse (successors F BB))
  end.

(** The loop, run for at most [fuel] iterations. *)
Fixpoint loop (fuel : nat) (st : DFSState) : DFSState :=
  match fuel with
  | O => st
  | S fuel' =>
      match WorkList st with
      | [] => st
      | _ :: _ => loop fuel' (step st)
      end
  end.

(** The state on entry to the loop. *)
Definition initial (Start : Node) : DFSState :=
  {| Res := {| nextDFSNum := 0;
               numToNode := [];
               NodeToInfo := {[Start := DFSNodeInfo_init]} |};
     Visited := ∅;
     WorkList := [Start];
     Sched := [] |}.

End DFS.

(** The number of arcs of the function. *)
Definition arcsNum (F : BlockStore) : nat :=
  sum_list ((λ kb, length (term_successors (bbTerm kb.2))) <$> map_to_list F).

(** The loop runs at most once per [push_back], and there is one
    [push_back] for [Start] and at most one per arc: [S (arcsNum F)]
    iterations always empty the work list ([runDFS_terminates] below). *)
Definition runDFS_state (F : BlockStore) (Start : Node)
    (Condition : Node → Node → bool) : DFSState :=
  loop F Condition (S (arcsNum F)) (initial Start).

Definition runDFS (F : BlockStore) (Start : Node)
    (Condition : Node → Node → bool) : DFSResult :=
  Res (runDFS_state F Start Condition).

(** The switch that successive calls of [connect] build for the listed
    successors: the first is the default destination, the others are
    cases numbered from 0. *)
Definition switch_of (succs : list Node) : option SwitchInst :=
  match succs with
  | [] => None
  | d :: cs => Some {| DefaultDest := d;
                       Cases := imap (λ i c, (wrap (N.of_nat i), c)) cs |}
  end.

(** Small functions for examples: a block for every listed node, with
    the switch over the listed successors. *)
Definition blocks_of (adj : list (Node * list Node)) : BlockStore :=
  list_to_map ((λ p, (p.1, {| bbName := "n_" +:+ pretty (Npos p.1);
                              bbTerm := switch_of p.2 |})) <$> adj).

(** ** Reading the result and the schedule log *)

(** The last, and the first, node that pushed [v] onto the work list
    according to the log. *)
Fixpoint last_sched (v : Node) (log : list (Node * Node)) : option Node :=
  match log with
  | [] => None
  | (u, w) :: log' =>
      match last_sched v log' with
      | Some x => Some x
      | None => if decide (w = v) then Some u else None
      end
  end.

Fixpoint first_sched (v : Node) (log : list (Node * Node)) : option Node :=
  match log with
  | [] => None
  | (u, w) :: log' => if decide (w = v) then Some u else first_sched v log'
  end.

(** [u] sits at a smaller index than [v] in [l]. *)
Definition before (l : list Node) (u v : Node) : Prop :=
  ∃ i j : nat, (i < j)%nat ∧ l !! i = Some u ∧ l !! j = Some v.

(** The predecessor list that the scans of the nodes of [order], in that
    order, build for [v]: each scanned [u ≠ v] once per arc [u → v]. *)
Definition preds_spec (F : BlockStore) (order : list Node) (v : Node) : list Node :=
  flat_map (λ u, if decide (u = v) then []
                 else replicate (count_occ Pos.eq_dec (successors F u) v) u)
           order.

(** ** Notions used to reason about the loop *)

(** The successors that a scan from [BB] pushes, when [V] is the
    visited set. *)
Definition pushed (Condition : Node → Node → bool) (BB : Node) (V : gset Node)
    (l : list Node) : list Node :=
  filter (λ v, (v ∉ V) ∧ (Condition BB v = true)) l.

(** What a scan of the list [l] from [BB] leaves in the map at [v]. *)
Definition scanned_info (Condition : Node → Node → bool) (BB : Node)
    (V : gset Node) (l : list Node) (M : gmap Node DFSNodeInfo) (v : Node)
    : option DFSNodeInfo :=
  if decide (v ∈ l) then
    Some {| Predecessors :=
              Predecessors (info_at M v) ++
              (if decide (v = BB) then []
               else replicate (count_occ Pos.eq_dec l v) BB);
            Num := Num (info_at M v);
            Parent := if decide (v ∈ pushed Condition BB V l) then Some BB
                      else Parent (info_at M v) |}
  else M !! v.

(** The state after an iteration that pops an unvisited [BB]. *)
Definition visit_scan (F : BlockStore) (Condition : Node → Node → bool)
    (BB : Node) (WL : list Node) (st : DFSState) : DFSState :=
  foldl (scanSucc Condition BB) (visit BB WL st) (reverse (successors F BB)).

(** The loop invariant. *)
Record Inv (F : BlockStore) (Condition : Node → Node → bool) (Start : Node)
    (st : DFSState) : Prop := {
  inv_visited : ∀ n, n ∈ Visited st ↔ n ∈ numToNode (Res st);
  inv_nodup : NoDup (numToNode (Res st));
  inv_next :
    nextDFSNum (Res st) = wrap (N.of_nat (length (numToNode (Res st))));
  inv_num : ∀ (i : nat) n,
    numToNode (Res st) !! i = Some n →
    Num (info_at (NodeToInfo (Res st)) n) = wrap (N.of_nat i);
  inv_num_unvisited : ∀ n,
    n ∉ Visited st → Num (info_at (NodeToInfo (Res st)) n) = 0;
  inv_parent : ∀ v,
    Parent (info_at (NodeToInfo (Res st)) v) = last_sched v (Sched st);
  inv_preds : ∀ v,
    Predecessors (info_at (NodeToInfo (Res st)) v) =
    preds_spec F (numToNode (Res st)) v;
  inv_keys : ∀ v,
    is_Some (NodeToInfo (Res st) !! v) ↔
    v = Start ∨ ∃ u, u ∈ numToNode (Res st) ∧ v ∈ successors F u;
  inv_start :
    (numToNode (Res st) = [] ∧ Sched st = [] ∧ WorkList st = [Start]) ∨
    head (numToNode (Res st)) = Some Start;
  inv_sched : ∀ u v,
    (u, v) ∈ Sched st →
    Condition u v = true ∧ v ∈ successors F u ∧ v ≠ Start ∧
    u ∈ Visited st ∧ (v ∈ WorkList st ∨ v ∈ Visited st) ∧
    (v ∈ Visited st → before (numToNode (Res st)) u v);
  inv_worklist : ∀ w,
    w ∈ WorkList st →
    (w = Start ∧ numToNode (Res st) = []) ∨ ∃ u, (u, w) ∈ Sched st;
  inv_visited_sched : ∀ n,
    n ∈ numToNode (Res st) → n = Start ∨ ∃ u, (u, n) ∈ Sched st
}.

(** The arcs that leave the blocks not yet visited. *)
Fixpoint unscanned (V : gset Node) (L : list (Node * BasicBlock)) : nat :=
  match L with
  | [] => 0%nat
  | kb :: L' =>
      ((if decide (kb.1 ∈ V) then 0%nat
        else length (term_successors (bbTerm kb.2))) + unscanned V L')%nat
  end.

(** The loop's variant: the work list and the arcs still to scan. *)
Definition measure (F : BlockStore) (st : DFSState) : nat :=
  (length (WorkList st) + unscanned (Visited st) (map_to_list F))%nat.

(** ** The DFS tree and the preorder invariant *)

(** [u] is the parent of the visited node [v]. *)
Definition tree_edge (r : DFSResult) (u v : Node) : Prop :=
  v ∈ numToNode r ∧ Parent (info_at (NodeToInfo r) v) = Some u.

(** [w] is [u] or a descendant of [u] in the tree of the parents. *)
Definition descendant (r : DFSResult) : Node → Node → Prop :=
  rtc (tree_edge r).

(** What holds of the work list, when [WLp] pairs every entry with the
    node whose scan pushed it (top of the stack first). *)
Record PreInv (st : DFSState) (WLp : list (Node * Node)) : Prop := {
  p_wl : WorkList st = snd <$> WLp;
  p_order : ∀ (i j : nat) e e',
    (i < j)%nat → WLp !! i = Some e' → WLp !! j = Some e →
    descendant (Res st) e.1 e'.1;
  p_after : ∀ e x,
    e ∈ WLp → before (numToNode (Res st)) e.1 x →
    descendant (Res st) e.1 x;
  p_parent : ∀ (j : nat) e,
    WLp !! j = Some e → e.2 ∉ numToNode (Res st) →
    (∀ (i : nat) e', (i < j)%nat → WLp !! i = Some e' → e'.2 ≠ e.2) →
    Parent (info_at (NodeToInfo (Res st)) e.2) = Some e.1;
  p_contig : ∀ u v w,
    tree_edge (Res st) u v →
    before (numToNode (Res st)) u w → before (numToNode (Res st)) w v →
    descendant (Res st) u w
}.

Definition Pre (Start : Node) (st : DFSState) : Prop :=
  (numToNode (Res st) = [] ∧ WorkList st = [Start]) ∨ ∃ WLp, PreInv st WLp.

(** ** Outcomes of the driver code *)

(** What a call does: it returns a value, it ends the program
    ([llvm_unreachable], a failed [assert] or [cast<>], with the message
    of the source), or its behaviour is undefined. *)
Inductive Outcome (A : Type) : Type :=
| Returned (a : A)
| Abort (msg : string)
| Undefined.

Arguments Returned {A} a.
Arguments Abort {A} msg.
Arguments Undefined {A}.

#[global] Instance Outcome_ret : MRet Outcome := @Returned.

#[global] Instance Outcome_bind : MBind Outcome := λ A B f o,
  match o with
  | Returned a => f a
  | Abort msg => Abort msg
  | Undefined => Undefined
  end.

(** ** [llvm::connect] and [llvm::disconnect] *)

Definition set_term (B : BasicBlock) (T : option SwitchInst) : BasicBlock :=
  {| bbName := bbName B; bbTerm := T |}.

(** [connect(From, To)].  A [From] that is not a block of the function is
    a dangling pointer. *)
Definition connect (From To : Node) (F : BlockStore) : Outcome BlockStore :=
  match F !! From with
  | None => Undefined
  | Some B =>
      match bbTerm B with
      | None =>
          Returned (<[From := set_term B (Some {| DefaultDest := To;
                                                  Cases := [] |})]> F)
      | Some SI =>
          let Last := wrap (N.of_nat (length (Cases SI))) in
          Returned (<[From := set_term B
                       (Some {| DefaultDest := DefaultDest SI;
                                Cases := Cases SI ++ [(Last, To)] |})]> F)
      end
  end.

(** [SwitchInst::removeCase] of LLVM: the case at [idx] is overwritten
    with the last case, and the last case is dropped. *)
Definition removeCase (idx : nat) (cs : list (N * Node)) : list (N * Node) :=
  match last cs with
  | None => cs
  | Some c => take (length cs - 1) (<[idx := c]> cs)
  end.

(** [disconnect(From, To)].  The debug line reads the names of both
    blocks; [cast<SwitchInst>] of a missing terminator fails. *)
Definition disconnect (From To : Node) (F : BlockStore) : Outcome BlockStore :=
  match F !! From, F !! To with
  | Some B, Some _ =>
      match bbTerm B with
      | None => Abort "cast<Ty>() argument of incompatible type!"
      | Some SI =>
          match Cases SI with
          | [] => Returned (<[From := set_term B None]> F)
          | FirstC :: _ =>
              if decide (DefaultDest SI = To) then
                Returned (<[From := set_term B
                             (Some {| DefaultDest := FirstC.2;
                                      Cases := removeCase 0 (Cases SI) |})]> F)
              else
                match list_find (λ c, c.2 = To) (Cases SI) with
                | Some (i, _) =>
                    Returned (<[From := set_term B
                                 (Some {| DefaultDest := DefaultDest SI;
                                          Cases := removeCase i (Cases SI) |})]> F)
                | None => Returned F
                end
          end
      end
  | _, _ => Undefined
  end.

(** ** [InputGraph] *)

Inductive Op : Set := Insert | Delete.

Record Update : Set := mkUpdate {
  action : Op;
  arc : N * N
}.

(** Modelled from the spec: the declaration of [GraphCFG] (in
    [llvm/IR/DomSupport.h]) is not among the sources.  The fields are
    those that [toCFG] uses: the function that holds the blocks, and the
    map from node numbers to blocks. *)
Record GraphCFG : Type := mkCFG {
  function : BlockStore;
  numToBB : gmap N Node
}.

(** Modelled from the spec: the declaration of [InputGraph] (in
    [llvm/IR/DomSupport.h]) is not among the sources.  The fields are
    those that [DomSupport.cpp] uses; the problem header gives [N] nodes
    numbered [1..N], the entry and the initial arcs, then come the
    deferred updates. *)
Record InputGraph : Type := mkGraph {
  nodesNum : N;
  entry : N;
  arcs : list (N * N);
  updates : list Update;
  updateIdx : nat;
  cfg : option GraphCFG
}.

(** The graph [InputGraph Graph;] starts from.  [readFromFile] asserts
    [Graph.nodesNum == 0] before the first header is stored. *)
Definition InputGraph_init : InputGraph :=
  {| nodesNum := 0; entry := 0; arcs := []; updates := [];
     updateIdx := 0; cfg := None |}.

(** ** [InputGraph::toCFG] *)

(** [BasicBlock::Create(context, name, function)]: a new block, without
    terminator, under a handle that no block of the function has.  The
    names [toCFG] passes are distinct, so none is renamed. *)
Definition BasicBlock_Create (name : string) (F : BlockStore) : Node * BlockStore :=
  let h := fresh (dom F) in
  (h, <[h := {| bbName := name; bbTerm := None |}]> F).

(** The lambda [MakeName]: the prefix followed by the number in decimal. *)
Definition MakeName (prefix : string) (num : N) : string :=
  prefix +:+ pretty num.

(** [Blocks[i]] read: past the end of the vector the behaviour is
    undefined, and so is the use that [connect] makes of a null entry. *)
Definition Blocks_at (Blocks : list (option Node)) (i : N) : Outcome Node :=
  match Blocks !! N.to_nat i with
  | Some (Some h) => Returned h
  | _ => Undefined
  end.

(** The state of [toCFG]: the function, [Blocks] and [CFG.numToBB]. *)
Definition BuildState : Type := BlockStore * list (option Node) * gmap N Node.

(** [Blocks[num - 1] = MakeBB(name); CFG.numToBB[num] = Blocks[num - 1]]. *)
Definition addBlock (name : string) (num : N) (s : BuildState) : BuildState :=
  let '(F, Blocks, M) := s in
  let '(h, F') := BasicBlock_Create name F in
  (F', <[N.to_nat (usub num 1) := Some h]> Blocks, <[num := h]> M).

(** The body of [for (unsigned i = 1; i <= nodesNum; ++i)]. *)
Definition makeNode (entry : N) (s : BuildState) (i : N) : BuildState :=
  if decide (i ≠ entry) then addBlock (MakeName "n_" i) i s else s.

(** [for (const auto &A : arcs) connect(Blocks[A.first - 1], Blocks[A.second - 1])]. *)
Fixpoint connectArcs (Blocks : list (option Node)) (arcs : list (N * N))
    (F : BlockStore) : Outcome BlockStore :=
  match arcs with
  | [] => Returned F
  | A :: arcs' =>
      From ← Blocks_at Blocks (usub A.1 1);
      To ← Blocks_at Blocks (usub A.2 1);
      F' ← connect From To F;
      connectArcs Blocks arcs' F'
  end.

(** [toCFG]: the entry block and the graph with its [cfg] set.
    [Blocks[entry - 1]] is written first: with [entry - 1] (computed on
    [unsigned]) past the end the behaviour is undefined.  With
    [nodesNum = UINT_MAX] the test [i <= nodesNum] never fails, [i] wraps
    to 0 and [Blocks[i - 1]] is past the end. *)
Definition toCFG (g : InputGraph) : Outcome (Node * InputGraph) :=
  let Blocks0 : list (option Node) := replicate (N.to_nat (nodesNum g)) None in
  if decide (usub (entry g) 1 < nodesNum g) then
    if decide (nodesNum g < UINT_MOD - 1) then
      let '(EntryBB, F1) :=
        BasicBlock_Create (MakeName "entry_n_" (entry g)) ∅ in
      let s1 : BuildState :=
        (F1, <[N.to_nat (usub (entry g) 1) := Some EntryBB]> Blocks0,
         {[entry g := EntryBB]}) in
      let '(F2, Blocks2, M2) :=
        foldl (makeNode (entry g)) s1
              (N.of_nat <$> seq 1 (N.to_nat (nodesNum g))) in
      F3 ← connectArcs Blocks2 (arcs g) F2;
      Returned (EntryBB,
                {| nodesNum := nodesNum g; entry := entry g; arcs := arcs g;
                   updates := updates g; updateIdx := updateIdx g;
                   cfg := Some {| function := F3; numToBB := M2 |} |})
    else Undefined
  else Undefined.

(** ** [NewDomTree::InsertionInfo::DecreasingLevel] *)

(** The comparator of the priority queue [bucket], on pairs of a level
    and a node. *)
Definition DecreasingLevel (First Second : N * Node) : bool :=
  bool_decide (Second.1 < First.1).

(** ** [NodeByName] *)

(** The comparator of [std::set<Node, NodeByName>].
    [StringRef::compare_numeric] is not among the sources: it is the
    parameter [compare_numeric], with a result that is negative, zero or
    positive.  [less{}] on two nodes compares the pointers, here the
    handles.  Reading the name of a block that is not there is
    undefined. *)
Definition NodeByName (compare_numeric : string → string → Z)
    (F : BlockStore) (first second : Node) : Outcome bool :=
  match F !! first, F !! second with
  | Some B1, Some B2 =>
      let Cmp := compare_numeric (bbName B1) (bbName B2) in
      if decide (Cmp = 0%Z) then Returned (bool_decide (first < second)%positive)
      else Returned (bool_decide (Cmp < 0)%Z)
  | _, _ => Undefined
  end.

(** ** [InputGraph::applyUpdate] *)



(** ** [InputGraph::readFromFile] *)

(** [std::isspace] in the C locale. *)
Definition isspace (c : ascii) : bool :=
  let n := N_of_ascii c in (n =? 32) || ((9 <=? n) && (n <=? 13)).

Definition isdigit (c : ascii) : bool :=
  let n := N_of_ascii c in (48 <=? n) && (n <=? 57).

Fixpoint skipws (s : string) : string :=
  match s with
  | String c r => if isspace c then skipws r else s
  | EmptyString => s
  end.

(** The decimal digits at the front of [s]: how many there are, their
    value after [acc], and what follows them. *)
Fixpoint read_digits (s : string) (acc : N) (count : nat) : N * nat * string :=
  match s with
  | String c r =>
      if isdigit c then read_digits r (10 * acc + (N_of_ascii c - 48)) (S count)
      else (acc, count, s)
  | EmptyString => (acc, count, s)
  end.

(** [ISS >> x] for an [unsigned x], as [std::num_get] does it in the C
    locale with the default decimal base: white space is skipped, a sign
    is accepted, at least one digit is needed, a value above [UINT_MAX]
    sets [failbit], and a minus sign negates the value on [unsigned].
    [None] is a stream with [failbit] set. *)
Definition extract_unsigned (s : string) : option (N * string) :=
  let s1 := skipws s in
  let '(neg, s2) :=
    match s1 with
    | String "-" r => (true, r)
    | String "+" r => (false, r)
    | _ => (false, s1)
    end in
  let '(v, count, rest) := read_digits s2 0 0 in
  if decide (count = 0%nat) then None
  else if decide (UINT_MOD ≤ v) then None
  else Some (if neg then usub 0 v else v, rest).

(** [ISS >> x >> y]. *)
Definition extract2 (s : string) : option (N * N) :=
  '(x, s1) ← extract_unsigned s;
  '(y, _) ← extract_unsigned s1;
  Some (x, y).

(** [ISS >> nodesNum >> arcsNum >> entry >> dummy]. *)
Definition extract4 (s : string) : option (N * N * N * N) :=
  '(a, s1) ← extract_unsigned s;
  '(b, s2) ← extract_unsigned s1;
  '(c, s3) ← extract_unsigned s2;
  '(d, _) ← extract_unsigned s3;
  Some (a, b, c, d).

Definition push_update (G : InputGraph) (o : Op) (x y : N) : InputGraph :=
  {| nodesNum := nodesNum G; entry := entry G; arcs := arcs G;
     updates := updates G ++ [{| action := o; arc := (x, y) |}];
     updateIdx := updateIdx G; cfg := cfg G |}.

(** The [i] and [d] cases of the switch. *)
Definition readUpdate (o : Op) (rest : string) (G : InputGraph) : Outcome InputGraph :=
  match extract2 rest with
  | None => Abort "Parse error"
  | Some (x, y) =>
      if decide (x ≤ nodesNum G) then
        if decide (y ≤ nodesNum G) then Returned (push_update G o x y)
        else Abort "y <= Graph.nodesNum"
      else Abort "x <= Graph.nodesNum"
  end.

(** The body of the [for] loop for one non-empty line.  [ISS >> Action]
    skips white space; on a line of white space only it fails and the
    switch reads an uninitialised [Action]. *)
Definition readLine (G : InputGraph) (Line : string) : Outcome InputGraph :=
  match skipws Line with
  | EmptyString => Undefined
  | String Action rest =>
      if decide (Action = "p"%char) then
        if decide (nodesNum G = 0) then
          match extract4 rest with
          | None => Abort "Parse error"
          | Some (n, _, e, _) =>
              Returned {| nodesNum := n; entry := e; arcs := arcs G;
                          updates := updates G; updateIdx := updateIdx G;
                          cfg := cfg G |}
          end
        else Abort "Double init?"
      else if decide (Action = "a"%char) then
        match extract2 rest with
        | None => Abort "Parse error"
        | Some (x, y) =>
            Returned {| nodesNum := nodesNum G; entry := entry G;
                        arcs := arcs G ++ [(x, y)];
                        updates := updates G; updateIdx := updateIdx G;
                        cfg := cfg G |}
        end
      else if decide (Action = "e"%char) then Returned G
      else if decide (Action = "i"%char) then readUpdate Insert rest G
      else if decide (Action = "d"%char) then readUpdate Delete rest G
      else Abort "Unknown action"
  end.

(** The lines that successive calls of [std::getline] deliver until it
    fails: [cur] is the line read so far.  At the end of the file a line
    without characters is a failed call. *)
Fixpoint getlines (cur : string) (s : string) : list string :=
  match s with
  | EmptyString => if decide (cur = EmptyString) then [] else [cur]
  | String c r =>
      if decide (c = ascii_of_nat 10) then cur :: getlines EmptyString r
      else getlines (cur +:+ String c EmptyString) r
  end.

(** [for (std::string Line; std::getline(IFS, Line) && !Line.empty();)]. *)
Fixpoint readLoop (G : InputGraph) (lines : list string) : Outcome InputGraph :=
  match lines with
  | [] => Returned G
  | Line :: lines' =>
      if decide (Line = EmptyString) then Returned G
      else G' ← readLine G Line; readLoop G' lines'
  end.

(** [readFromFile]: [file] is the content of the file, [None] for a file
    that cannot be opened (every [getline] fails on such a stream).  The
    result is the [Optional<InputGraph>] of the source. *)
Definition readFromFile (file : option string) : Outcome (option InputGraph) :=
  let lines := match file with
               | Some content => getlines EmptyString content
               | None => []
               end in
  G ← readLoop InputGraph_init lines;
  Returned (Some G).

Definition nl : string := String (ascii_of_nat 10) EmptyString.

Definition file_tri : string :=
  "p 3 3 1 0" +:+ nl +:+ "a 1 2" +:+ nl +:+ "a 1 3" +:+ nl +:+ "a 2 3" +:+ nl +:+
  "e" +:+ nl +:+ "i 3 1" +:+ nl +:+ "d 1 2" +:+ nl.

(** ** Notions used to state what [toCFG] builds *)

(** The name [toCFG] gives to the block of node [k]. *)
Definition block_name (entry k : N) : string :=
  if decide (k = entry) then MakeName "entry_n_" k else MakeName "n_" k.

(** The blocks that the arcs leaving node [k] lead to, in the order of
    the arc list. *)
Definition arc_targets (M : gmap N Node) (k : N) (arcs : list (N * N)) : list Node :=
  omap (λ a, if decide (a.1 = k) then M !! a.2 else None) arcs.

(** A graph as the problem header describes it: the entry is one of the
    nodes [1..N], every arc joins two of them, and [N] is below
    [UINT_MAX]. *)
Definition wf_input (g : InputGraph) : Prop :=
  1 ≤ entry g ≤ nodesNum g ∧ nodesNum g < UINT_MOD - 1 ∧
  Forall (λ a, (1 ≤ a.1 ≤ nodesNum g) ∧ (1 ≤ a.2 ≤ nodesNum g)) (arcs g).

(** What holds of [toCFG]'s state once the blocks of the nodes in [S]
    are made. *)
Record Built (n entry : N) (S : gset N) (s : BuildState) : Prop := {
  b_dom : ∀ k, is_Some (s.2 !! k) ↔ k ∈ S;
  b_range : ∀ k, k ∈ S → 1 ≤ k ≤ n;
  b_blocks : ∀ k h, s.2 !! k = Some h →
    s.1.2 !! N.to_nat (k - 1) = Some (Some h);
  b_store : ∀ k h, s.2 !! k = Some h →
    s.1.1 !! h = Some {| bbName := block_name entry k; bbTerm := None |};
  b_inj : ∀ k k' h, s.2 !! k = Some h → s.2 !! k' = Some h → k = k';
  b_img : ∀ h, is_Some (s.1.1 !! h) → ∃ k, s.2 !! k = Some h;
  b_len : length s.1.2 = N.to_nat n
}.

(** What holds of the function once the arcs [done] are connected. *)
Record Connected (entry : N) (M : gmap N Node) (done : list (N * N))
    (F : BlockStore) : Prop := {
  c_store : ∀ k h, M !! k = Some h →
    F !! h = Some {| bbName := block_name entry k;
                     bbTerm := switch_of (arc_targets M k done) |};
  c_img : ∀ h, is_Some (F !! h) → ∃ k, M !! k = Some h
}.

(** ** Example graphs *)

(** [1 → 2, 1 → 3, 2 → 3]. *)
Definition G_tri : BlockStore :=
  blocks_of [(1, [2; 3]); (2, [3]); (3, [])]%positive.

(** A single block with an arc to itself. *)
Definition G_self : BlockStore := blocks_of [(1, [1])]%positive.

(** [1 → 2, 1 → 3, 1 → 4]. *)
Definition G_fan : BlockStore :=
  blocks_of [(1, [2; 3; 4]); (2, []); (3, []); (4, [])]%positive.

Definition always : Node → Node → bool := λ _ _, true.
Definition never : Node → Node → bool := λ _ _, false.

(** ** The claims about [runDFS] as the specification words them *)

(** Every scanned arc [(u, v)], self-loops included, puts [u] into the
    predecessor list of [v]. *)
Definition records_every_scanned_arc (F : BlockStore) (Start : Node)
    (Condition : Node → Node → bool) : Prop :=
  ∀ u v, u ∈ numToNode (runDFS F Start Condition) → v ∈ successors F u →
    ∃ info, NodeToInfo (runDFS F Start Condition) !! v = Some info ∧
            u ∈ Predecessors info.

(** The parent of a visited node other than [Start] is the first node
    that pushed it, and [Start] has no parent. *)
Definition parent_is_first_scheduler (F : BlockStore) (Start : Node)
    (Condition : Node → Node → bool) : Prop :=
  (∀ n, n ∈ numToNode (runDFS F Start Condition) → n ≠ Start →
     ∃ info, NodeToInfo (runDFS F Start Condition) !! n = Some info ∧
             Parent info = first_sched n (Sched (runDFS_state F Start Condition))) ∧
  (∃ info, NodeToInfo (runDFS F Start Condition) !! Start = Some info ∧
           Parent info = None).

(** ** Example inputs of the driver *)

(** The graph of [file_tri]. *)
Definition input_tri : InputGraph :=
  {| nodesNum := 3; entry := 1; arcs := [(1, 2); (1, 3); (2, 3)];
     updates := [{| action := Insert; arc := (3, 1) |};
                 {| action := Delete; arc := (1, 2) |}];
     updateIdx := 0; cfg := None |}.

(** A line with an opcode that is not one of [p a e i d]. *)
Definition file_unknown_action : string := "p 3 1 1 0" +:+ nl +:+ "x 1 2" +:+ nl.

(** An arc line with one number missing. *)
Definition file_parse_error : string := "p 3 1 1 0" +:+ nl +:+ "a 1" +:+ nl.

(** Two header lines. *)
Definition file_double_init : string :=
  "p 3 1 1 0" +:+ nl +:+ "p 3 1 1 0" +:+ nl.

(** A harness file with the single arc [1 → 2] and the update that
    deletes the arc [1 → 3], which the graph does not have, and the graph
    read from it. *)
Definition file_one_arc : string :=
  "p 3 1 1 0" +:+ nl +:+ "a 1 2" +:+ nl +:+ "e" +:+ nl +:+ "d 1 3" +:+ nl.

Definition input_one_arc : InputGraph :=
  {| nodesNum := 3; entry := 1; arcs := [(1, 2)];
     updates := [{| action := Delete; arc := (1, 3) |}];
     updateIdx := 0; cfg := None |}.

(** ** The claims about the driver as the specification words them *)

(** [readFromFile] reports the error in [file] to its caller: the call
    returns. *)
Definition reported_recoverably (file : string) : Prop :=
  ∃ r, readFromFile (Some file) = Returned r.

(** [readFromFile] returns a graph for every input. *)
Definition always_returns_graph : Prop :=
  ∀ file, ∃ g, readFromFile file = Returned (Some g).

(** The three kinds of bad line, for a graph [G] read so far. *)
Definition known_opcodes : list ascii :=
  ["p"; "a"; "e"; "i"; "d"]%char.

Definition unknown_opcode (Line : string) : Prop :=
  ∃ Action rest, skipws Line = String Action rest ∧ Action ∉ known_opcodes.

Definition second_header (G : InputGraph) (Line : string) : Prop :=
  nodesNum G ≠ 0 ∧ ∃ rest, skipws Line = String "p" rest.

Definition malformed_line (G : InputGraph) (Line : string) : Prop :=
  ∃ Action rest, skipws Line = String Action rest ∧
    ((Action = "p"%char ∧ nodesNum G = 0 ∧ extract4 rest = None) ∨
     (Action ∈ ["a"; "i"; "d"]%char ∧ extract2 rest = None)).

(** ** Notions used to state further properties of [runDFS] *)

(** An arc [u → v] along which the walk may descend. *)
Definition accepted (F : BlockStore) (Condition : Node → Node → bool)
    (u v : Node) : Prop :=
  v ∈ successors F u ∧ Condition u v = true.

(** Visited nodes are reached along accepted arcs, and an accepted arc
    out of a visited node leads to a node that is visited or waits on the
    work list. *)
Record ReachInv (F : BlockStore) (Condition : Node → Node → bool)
    (Start : Node) (st : DFSState) : Prop := {
  r_visited : ∀ n,
    n ∈ numToNode (Res st) → rtc (accepted F Condition) Start n;
  r_closed : ∀ u v,
    u ∈ numToNode (Res st) → accepted F Condition u v →
    v ∈ numToNode (Res st) ∨ v ∈ WorkList st
}.

(** What [readFromFile] establishes of the graph it reads: the numbers
    are [unsigned] values, no update is applied yet, no CFG is built, and
    the ends of every update passed the assertions [x <= Graph.nodesNum],
    [y <= Graph.nodesNum]. *)
Definition as_read (G : InputGraph) : Prop :=
  updateIdx G = 0%nat ∧ cfg G = None ∧
  nodesNum G < UINT_MOD ∧ entry G < UINT_MOD ∧
  Forall (λ a, a.1 < UINT_MOD ∧ a.2 < UINT_MOD) (arcs G) ∧
  Forall (λ u, ((arc u).1 ≤ nodesNum G) ∧ ((arc u).2 ≤ nodesNum G)) (updates G).

(** ** The harness format, to state what [readFromFile] reads *)

(** The text of a graph in the format that [readFromFile] reads: the
    problem line [p N M entry dummy], a line [a x y] for each arc, the
    line [e], and a line [i x y] or [d x y] for each update, numbers in
    decimal, every line ended by a newline. *)
Definition header_line (n m e d : N) : string :=
  "p " +:+ pretty n +:+ " " +:+ pretty m +:+ " " +:+ pretty e +:+ " " +:+ pretty d.

Definition arc_line (a : N * N) : string :=
  "a " +:+ pretty a.1 +:+ " " +:+ pretty a.2.

Definition update_line (u : Update) : string :=
  match action u with Insert => "i " | Delete => "d " end
  +:+ pretty (arc u).1 +:+ " " +:+ pretty (arc u).2.

Fixpoint unlines (ls : list string) : string :=
  match ls with
  | [] => EmptyString
  | l :: ls' => l +:+ nl +:+ unlines ls'
  end.

(** The lines of [g], with [m] for the number of arcs of the problem
    line. *)
Definition graph_lines (m : N) (g : InputGraph) : list string :=
  header_line (nodesNum g) m (entry g) 0
  :: (arc_line <$> arcs g) ++ "e" :: (update_line <$> updates g).

Definition graph_text (g : InputGraph) : string :=
  unlines (graph_lines (N.of_nat (length (arcs g))) g).

(** * Properties of [runDFS] *)

Section DFS_facts.

Variable F : BlockStore.
Variable Condition : Node → Node → bool.

Lemma scanSucc_Visited BB st v : Visited (scanSucc Condition BB st v) = Visited st.
Proof. unfold scanSucc. case_decide; [destruct (Condition BB v)|]; reflexivity. Qed.

Lemma scanSucc_numToNode BB st v :
  numToNode (Res (scanSucc Condition BB st v)) = numToNode (Res st).
Proof. unfold scanSucc. case_decide; [destruct (Condition BB v)|]; reflexivity. Qed.

Lemma scanSucc_nextDFSNum BB st v :
  nextDFSNum (Res (scanSucc Condition BB st v)) = nextDFSNum (Res st).
Proof. unfold scanSucc. case_decide; [destruct (Condition BB v)|]; reflexivity. Qed.

Lemma scanSucc_WorkList BB st v :
  WorkList (scanSucc Condition BB st v) =
  pushed Condition BB (Visited st) [v] ++ WorkList st.
Proof.
  unfold scanSucc, pushed. rewrite filter_cons, filter_nil.
  case_decide as Hv; [destruct (Condition BB v) eqn:Hc|]; simpl;
    case_decide; try reflexivity; naive_solver.
Qed.

Lemma scanSucc_Sched BB st v :
  Sched (scanSucc Condition BB st v) =
  Sched st ++ ((λ w, (BB, w)) <$> pushed Condition BB (Visited st) [v]).
Proof.
  unfold scanSucc, pushed. rewrite filter_cons, filter_nil.
  case_decide as Hv; [destruct (Condition BB v) eqn:Hc|]; simpl;
    case_decide; simpl; rewrite ?app_nil_r; try reflexivity; naive_solver.
Qed.

Lemma scanSucc_lookup BB st v w :
  NodeToInfo (Res (scanSucc Condition BB st v)) !! w =
  scanned_info Condition BB (Visited st) [v] (NodeToInfo (Res st)) w.
Proof.
  unfold scanned_info, pushed. rewrite filter_cons, filter_nil.
  destruct (decide (w ∈ [v])) as [Hw|Hw].
  - apply list_elem_of_singleton in Hw; subst w.
    unfold scanSucc. cbn zeta.
    simpl count_occ. destruct (Pos.eq_dec v v) as [_|]; [|done]. 
    destruct (decide (v ∉ Visited st)) as [Hv|Hv];
      [destruct (Condition BB v) eqn:Hc|]; simpl;
      rewrite lookup_insert_eq; f_equal.
    all: repeat case_decide; simpl; rewrite ?app_nil_r; try done; try (exfalso; set_solver).
  - assert (v ≠ w) by set_solver.
    unfold scanSucc.
    case_decide as Hv; [destruct (Condition BB v) eqn:Hc|]; simpl;
      by rewrite lookup_insert_ne.
Qed.

Lemma elem_of_pushed BB V l v :
  v ∈ pushed Condition BB V l ↔ v ∈ l ∧ (v ∉ V) ∧ Condition BB v = true.
Proof. unfold pushed. rewrite list_elem_of_filter. tauto. Qed.

Lemma scan_Visited BB l st : Visited (foldl (scanSucc Condition BB) st l) = Visited st.
Proof.
  revert st. induction l as [|v l IH]; intros st; simpl; [done|].
  by rewrite IH, scanSucc_Visited.
Qed.

Lemma scan_numToNode BB l st :
  numToNode (Res (foldl (scanSucc Condition BB) st l)) = numToNode (Res st).
Proof.
  revert st. induction l as [|v l IH]; intros st; simpl; [done|].
  by rewrite IH, scanSucc_numToNode.
Qed.

Lemma scan_nextDFSNum BB l st :
  nextDFSNum (Res (foldl (scanSucc Condition BB) st l)) = nextDFSNum (Res st).
Proof.
  revert st. induction l as [|v l IH]; intros st; simpl; [done|].
  by rewrite IH, scanSucc_nextDFSNum.
Qed.

Lemma scan_WorkList BB l st :
  WorkList (foldl (scanSucc Condition BB) st l) =
  reverse (pushed Condition BB (Visited st) l) ++ WorkList st.
Proof.
  revert st. induction l as [|v l IH]; intros st; simpl; [done|].
  rewrite IH, scanSucc_Visited, scanSucc_WorkList.
  change (v :: l) with ([v] ++ l). unfold pushed.
  rewrite (filter_app _ [v] l), reverse_app, <- (filter_reverse _ [v]).
  change (reverse [v]) with [v]. by rewrite <- app_assoc.
Qed.

Lemma scan_Sched BB l st :
  Sched (foldl (scanSucc Condition BB) st l) =
  Sched st ++ ((λ w, (BB, w)) <$> pushed Condition BB (Visited st) l).
Proof.
  revert st. induction l as [|v l IH]; intros st; simpl.
  - by rewrite app_nil_r.
  - rewrite IH, scanSucc_Visited, scanSucc_Sched.
    change (v :: l) with ([v] ++ l). unfold pushed.
    rewrite (filter_app _ [v] l), fmap_app. by rewrite <- app_assoc.
Qed.

Lemma count_occ_not_elem (l : list Node) (v : Node) :
  v ∉ l → count_occ Pos.eq_dec l v = 0%nat.
Proof. rewrite list_elem_of_In. apply count_occ_not_In. Qed.

Lemma info_at_scanned BB V l M M' v :
  M' !! v = scanned_info Condition BB V l M v →
  info_at M' v =
    {| Predecessors :=
         Predecessors (info_at M v) ++
         (if decide (v = BB) then []
          else replicate (count_occ Pos.eq_dec l v) BB);
       Num := Num (info_at M v);
       Parent := if decide (v ∈ pushed Condition BB V l) then Some BB
                 else Parent (info_at M v) |}.
Proof.
  intros HM. unfold info_at at 1. rewrite HM. unfold scanned_info.
  destruct (decide (v ∈ l)) as [Hl|Hl]; simpl; [done|].
  rewrite (decide_False (P := v ∈ pushed Condition BB V l))
    by (rewrite elem_of_pushed; tauto).
  rewrite (count_occ_not_elem l v Hl). simpl.
  unfold info_at. destruct (M !! v) as [[]|]; simpl;
    destruct (decide (v = BB)); by rewrite ?app_nil_r.
Qed.

Lemma scan_lookup BB l st w :
  NodeToInfo (Res (foldl (scanSucc Condition BB) st l)) !! w =
  scanned_info Condition BB (Visited st) l (NodeToInfo (Res st)) w.
Proof.
  revert st. induction l as [|v l IH] using rev_ind; intros st.
  - unfold scanned_info.
    by rewrite decide_False by apply not_elem_of_nil.
  - rewrite foldl_snoc, scanSucc_lookup, scan_Visited.
    unfold scanned_info at 1.
    destruct (decide (w ∈ [v])) as [Hw|Hw].
    + apply list_elem_of_singleton in Hw; subst w.
      rewrite (info_at_scanned BB (Visited st) l (NodeToInfo (Res st)))
        by apply IH.
      unfold scanned_info.
      rewrite (decide_True (P := v ∈ l ++ [v])) by set_solver.
      simpl. f_equal. f_equal.
      * rewrite <- app_assoc. f_equal.
        rewrite count_occ_app. simpl count_occ.
        destruct (Pos.eq_dec v v); [|done].
        destruct (decide (v = BB)); [done|].
        rewrite Nat.add_1_r.
        by rewrite (replicate_S_end (count_occ Pos.eq_dec l v)).
      * repeat case_decide; try done; exfalso;
          rewrite !elem_of_pushed in *; set_solver.
    + rewrite IH. unfold scanned_info.
      assert (w ≠ v) by set_solver.
      rewrite count_occ_app. simpl.
      destruct (Pos.eq_dec v w); [done|]. rewrite Nat.add_0_r.
      repeat case_decide; try done; exfalso;
        rewrite ?elem_of_pushed in *; set_solver.
Qed.

(** *** One iteration in closed form *)

Lemma step_visited st BB WL :
  WorkList st = BB :: WL → BB ∈ Visited st →
  step F Condition st =
    {| Res := Res st; Visited := Visited st; WorkList := WL; Sched := Sched st |}.
Proof. intros HW HV. unfold step. rewrite HW. by rewrite decide_True. Qed.

Lemma step_unvisited st BB WL :
  WorkList st = BB :: WL → BB ∉ Visited st →
  step F Condition st = visit_scan F Condition BB WL st.
Proof. intros HW HV. unfold step. rewrite HW. by rewrite decide_False. Qed.

Lemma visit_scan_Visited BB WL st :
  Visited (visit_scan F Condition BB WL st) = {[BB]} ∪ Visited st.
Proof. unfold visit_scan. by rewrite scan_Visited. Qed.

Lemma visit_scan_numToNode BB WL st :
  numToNode (Res (visit_scan F Condition BB WL st)) = numToNode (Res st) ++ [BB].
Proof. unfold visit_scan. by rewrite scan_numToNode. Qed.

Lemma visit_scan_nextDFSNum BB WL st :
  nextDFSNum (Res (visit_scan F Condition BB WL st)) = wrap (nextDFSNum (Res st) + 1).
Proof. unfold visit_scan. by rewrite scan_nextDFSNum. Qed.

Lemma visit_scan_WorkList BB WL st :
  WorkList (visit_scan F Condition BB WL st) =
  pushed Condition BB ({[BB]} ∪ Visited st) (successors F BB) ++ WL.
Proof.
  unfold visit_scan. rewrite scan_WorkList. simpl. unfold pushed.
  by rewrite filter_reverse, reverse_involutive.
Qed.

Lemma visit_scan_Sched BB WL st :
  Sched (visit_scan F Condition BB WL st) =
  Sched st ++
  ((λ w, (BB, w)) <$> reverse (pushed Condition BB ({[BB]} ∪ Visited st) (successors F BB))).
Proof.
  unfold visit_scan. rewrite scan_Sched. simpl. unfold pushed.
  by rewrite filter_reverse.
Qed.

Lemma count_occ_reverse (l : list Node) (v : Node) :
  count_occ Pos.eq_dec (reverse l) v = count_occ Pos.eq_dec l v.
Proof. apply Permutation_count_occ, reverse_Permutation. Qed.

Lemma info_at_insert (M : gmap Node DFSNodeInfo) (k w : Node) (x : DFSNodeInfo) :
  info_at (<[k := x]> M) w = if decide (w = k) then x else info_at M w.
Proof.
  unfold info_at. rewrite lookup_insert.
  destruct (decide (k = w)), (decide (w = k)); simpl; congruence.
Qed.

Lemma visit_scan_info_at BB WL st w :
  info_at (NodeToInfo (Res (visit_scan F Condition BB WL st))) w =
  {| Predecessors :=
       Predecessors (info_at (NodeToInfo (Res st)) w) ++
       (if decide (w = BB) then []
        else replicate (count_occ Pos.eq_dec (successors F BB) w) BB);
     Num := if decide (w = BB) then nextDFSNum (Res st)
            else Num (info_at (NodeToInfo (Res st)) w);
     Parent :=
       if decide (w ∈ pushed Condition BB ({[BB]} ∪ Visited st) (successors F BB))
       then Some BB
       else Parent (info_at (NodeToInfo (Res st)) w) |}.
Proof.
  unfold visit_scan.
  rewrite (info_at_scanned BB (Visited (visit BB WL st))
             (reverse (successors F BB)) (NodeToInfo (Res (visit BB WL st))))
    by apply scan_lookup.
  rewrite count_occ_reverse. simpl.
  assert (Hp : w ∈ pushed Condition BB ({[BB]} ∪ Visited st) (reverse (successors F BB))
             ↔ w ∈ pushed Condition BB ({[BB]} ∪ Visited st) (successors F BB)).
  { rewrite !elem_of_pushed, elem_of_reverse. tauto. }
  rewrite !info_at_insert.
  destruct (decide (w = BB)) as [->|Hne]; simpl;
    repeat case_decide; try done; tauto.
Qed.

Lemma visit_scan_keys BB WL st w :
  is_Some (NodeToInfo (Res (visit_scan F Condition BB WL st)) !! w) ↔
  w = BB ∨ w ∈ successors F BB ∨ is_Some (NodeToInfo (Res st) !! w).
Proof.
  unfold visit_scan. rewrite scan_lookup. unfold scanned_info. simpl.
  destruct (decide (w ∈ reverse (successors F BB))) as [Hw|Hw];
    rewrite elem_of_reverse in Hw.
  - split; [tauto|]. intros _. by eexists.
  - rewrite lookup_insert. case_decide; subst.
    + split; [tauto|]. intros _. by eexists.
    + split; [tauto|]. intros [?|[?|?]]; done.
Qed.

(** *** The schedule log *)

Lemma last_sched_app v l1 l2 :
  last_sched v (l1 ++ l2) =
  match last_sched v l2 with Some x => Some x | None => last_sched v l1 end.
Proof.
  induction l1 as [|[u w] l1 IH]; simpl.
  - by destruct (last_sched v l2).
  - rewrite IH. by destruct (last_sched v l2).
Qed.

Lemma last_sched_fmap v BB (l : list Node) :
  last_sched v ((λ w, (BB, w)) <$> l) = if decide (v ∈ l) then Some BB else None.
Proof.
    induction l as [|w l IH]; [done|].
    rewrite fmap_cons. cbn [last_sched]. rewrite IH.
    destruct (decide (v ∈ l)) as [Hl|Hl].
    - by rewrite decide_True by (by apply list_elem_of_further).
    - destruct (decide (w = v)) as [->|Hne].
      + by rewrite decide_True by apply list_elem_of_here.
      + rewrite decide_False; [done|].
        rewrite elem_of_cons. naive_solver.
Qed.

Lemma last_sched_Some v log u : last_sched v log = Some u → (u, v) ∈ log.
Proof.
  induction log as [|[u' w] log IH]; simpl; [done|].
  destruct (last_sched v log) as [x|].
  - intros [= ->]. apply list_elem_of_further. by apply IH.
  - case_decide; [|done]. intros [= ->]. subst. apply list_elem_of_here.
Qed.

Lemma last_sched_is_Some v log u : (u, v) ∈ log → is_Some (last_sched v log).
Proof.
  induction log as [|[u' w] log IH]; simpl.
  - intros H. by apply not_elem_of_nil in H.
  - rewrite elem_of_cons. intros [[= <- <-]|Hin].
    + destruct (last_sched v log); [by eexists|].
      rewrite decide_True by done. by eexists.
    + destruct (IH Hin) as [x ->]. by eexists.
Qed.

Lemma before_app_l l u v x : before l u v → before (l ++ [x]) u v.
Proof.
  intros (i & j & Hij & Hi & Hj). exists i, j.
  split; [done|]. split; apply lookup_app_l_Some; done.
Qed.

Lemma before_snoc l u v : u ∈ l → before (l ++ [v]) u v.
Proof.
  intros Hu. apply list_elem_of_lookup in Hu as [i Hi].
  exists i, (length l). split; [by eapply lookup_lt_Some|].
  split; [by apply lookup_app_l_Some|].
  rewrite lookup_app_r by done. by rewrite Nat.sub_diag.
Qed.

(** *** The loop invariant *)

Lemma Inv_initial Start : Inv F Condition Start (initial Start).
Proof.
  split; simpl.
  - intros n. set_solver.
  - constructor.
  - done.
  - intros i n H. by rewrite lookup_nil in H.
  - intros n _. unfold info_at. rewrite lookup_singleton.
    by case_decide.
  - intros v. unfold info_at. rewrite lookup_singleton. by case_decide.
  - intros v. unfold info_at. rewrite lookup_singleton. by case_decide.
  - intros v. rewrite lookup_singleton. case_decide; subst.
    + split; [by left|]. by eexists.
    + split; [by intros []|]. intros [->|(u & Hu & _)]; [done|].
      by apply not_elem_of_nil in Hu.
  - by left.
  - intros u v H. by apply not_elem_of_nil in H.
  - intros w Hw. apply list_elem_of_singleton in Hw. by left.
  - intros n H. by apply not_elem_of_nil in H.
Qed.

Lemma wrap_succ (n : N) : wrap (wrap n + 1) = wrap (n + 1).
Proof. unfold wrap. by rewrite N.Div0.add_mod_idemp_l. Qed.

(** Popping a node that is already visited keeps the invariant. *)
Lemma Inv_step_visited Start st BB WL :
  Inv F Condition Start st → WorkList st = BB :: WL → BB ∈ Visited st →
  Inv F Condition Start {| Res := Res st; Visited := Visited st;
               WorkList := WL; Sched := Sched st |}.
Proof.
  intros I HW HV. destruct I. split; simpl; try done.
  - destruct inv_start0 as [(Hn & _ & _)|]; [|by right].
    apply inv_visited0 in HV. rewrite Hn in HV.
    by apply not_elem_of_nil in HV.
  - intros u v Huv. destruct (inv_sched0 u v Huv) as (?&?&?&?&Hw&?).
    repeat split; try done.
    rewrite HW in Hw. rewrite elem_of_cons in Hw.
    destruct Hw as [[->|?]|?]; auto.
  - intros w Hw. apply inv_worklist0. rewrite HW. by apply list_elem_of_further.
Qed.

(** Visiting a node and scanning its successors keeps the invariant. *)
Lemma Inv_step_unvisited Start st BB WL :
  Inv F Condition Start st → WorkList st = BB :: WL → BB ∉ Visited st →
  Inv F Condition Start (visit_scan F Condition BB WL st).
Proof.
  intros I HW HV. destruct I.
  assert (HBBl : BB ∉ numToNode (Res st)) by (by rewrite <- inv_visited0).
  assert (HBBw : BB ∈ WorkList st) by (rewrite HW; apply list_elem_of_here).
  assert (HStart : Start ∈ ({[BB]} ∪ Visited st : gset Node)).
  { destruct inv_start0 as [(_ & _ & Hw)|Hh].
    - rewrite HW in Hw. injection Hw as -> _. set_solver.
    - apply elem_of_union_r, inv_visited0.
      destruct (numToNode (Res st)); [done|].
      injection Hh as ->. apply list_elem_of_here. }
  split.
  - intros n. rewrite visit_scan_Visited, visit_scan_numToNode.
    rewrite elem_of_app, list_elem_of_singleton, <- inv_visited0. set_solver.
  - rewrite visit_scan_numToNode. apply NoDup_app.
    split; [done|]. split; [|apply NoDup_singleton].
    intros x Hx Hx'. apply list_elem_of_singleton in Hx'. by subst.
  - rewrite visit_scan_nextDFSNum, visit_scan_numToNode, inv_next0.
    rewrite wrap_succ, length_app. simpl. f_equal. lia.
  - intros i n. rewrite visit_scan_numToNode, visit_scan_info_at. simpl.
    intros Hi. apply lookup_app_Some in Hi as [Hi|[Hlen Hi]].
    + rewrite decide_False.
      * by apply inv_num0.
      * intros ->. apply HBBl. by eapply list_elem_of_lookup_2.
    + apply list_lookup_singleton_Some in Hi as [Hi ->].
      rewrite decide_True by done. rewrite inv_next0. f_equal. lia.
  - intros n. rewrite visit_scan_Visited, visit_scan_info_at. simpl.
    intros Hn. rewrite decide_False by set_solver.
    apply inv_num_unvisited0. set_solver.
  - intros v. rewrite visit_scan_info_at, visit_scan_Sched. simpl.
    rewrite last_sched_app, last_sched_fmap, inv_parent0.
    destruct (decide (v ∈ pushed Condition BB ({[BB]} ∪ Visited st) (successors F BB)))
      as [Hp|Hp].
    + by rewrite decide_True by (by apply elem_of_reverse).
    + by rewrite decide_False by (by rewrite elem_of_reverse).
  - intros v. rewrite visit_scan_info_at, visit_scan_numToNode. simpl.
    unfold preds_spec. rewrite flat_map_app. simpl. rewrite app_nil_r.
    fold (preds_spec F (numToNode (Res st)) v). rewrite inv_preds0.
    f_equal. destruct (decide (v = BB)), (decide (BB = v)); congruence.
  - intros v. rewrite visit_scan_keys, visit_scan_numToNode, inv_keys0.
    split.
    + intros [->|[Hs|[->|(u & Hu & Hs)]]].
      * destruct (inv_worklist0 BB HBBw) as [[-> _]|[u Hu]]; [by left|].
        right. exists u. destruct (inv_sched0 u BB Hu) as (_&?&_&Hv&_).
        split; [|done]. apply elem_of_app. left. by apply inv_visited0.
      * right. exists BB. split; [|done]. apply elem_of_app. right.
        apply list_elem_of_here.
      * by left.
      * right. exists u. split; [|done]. apply elem_of_app. by left.
    + intros [->|(u & Hu & Hs)]; [tauto|].
      apply elem_of_app in Hu as [Hu|Hu].
      * right. right. right. by exists u.
      * apply list_elem_of_singleton in Hu as ->. tauto.
  - right. rewrite visit_scan_numToNode.
    destruct inv_start0 as [(Hn & _ & Hw)|Hh].
    + rewrite HW in Hw. injection Hw as -> _. by rewrite Hn.
    + destruct (numToNode (Res st)); [done|]. done.
  - intros u v. rewrite visit_scan_Sched, visit_scan_Visited,
      visit_scan_WorkList, visit_scan_numToNode.
    rewrite elem_of_app, list_elem_of_fmap.
    intros [Huv|(w & [= -> ->] & Hw)].
    + destruct (inv_sched0 u v Huv) as (Hc & Hs & Hne & Hu & Hw & Hb).
      repeat split; try done.
      * set_solver.
      * rewrite HW in Hw. rewrite elem_of_cons in Hw.
        rewrite elem_of_app.
        destruct Hw as [[->|?]|?]; [right; set_solver|tauto|right; set_solver].
      * intros Hv. apply elem_of_union in Hv as [Hv|Hv].
        -- apply elem_of_singleton in Hv as ->.
           apply before_snoc. by apply inv_visited0.
        -- apply before_app_l. by apply Hb.
    + apply elem_of_reverse, elem_of_pushed in Hw as (Hs & Hnv & Hc).
      repeat split; try done.
      * intros ->. done.
      * set_solver.
      * left. apply elem_of_app. left. by apply elem_of_pushed.
  - intros w. rewrite visit_scan_WorkList, visit_scan_Sched,
      visit_scan_numToNode.
    rewrite elem_of_app. intros [Hw|Hw].
    + right. exists BB. apply elem_of_app. right.
      apply list_elem_of_fmap. exists w. split; [done|].
      by apply elem_of_reverse.
    + assert (Hw' : w ∈ WorkList st)
        by (rewrite HW; by apply list_elem_of_further).
      destruct (inv_worklist0 w Hw') as [[-> Hn]|[u Hu]].
      * destruct inv_start0 as [(_ & _ & Hwl)|Hh].
        -- rewrite HW in Hwl. injection Hwl as _ ->.
           by apply not_elem_of_nil in Hw.
        -- by rewrite Hn in Hh.
      * right. exists u. apply elem_of_app. by left.
  - intros n. rewrite visit_scan_numToNode, visit_scan_Sched.
    rewrite elem_of_app, list_elem_of_singleton. intros [Hn| ->].
    + destruct (inv_visited_sched0 n Hn) as [->|[u Hu]]; [by left|].
      right. exists u. apply elem_of_app. by left.
    + destruct (inv_worklist0 BB HBBw) as [[-> _]|[u Hu]]; [by left|].
      right. exists u. apply elem_of_app. by left.
Qed.

Lemma Inv_step Start st :
  Inv F Condition Start st → Inv F Condition Start (step F Condition st).
Proof.
  intros I. destruct (WorkList st) as [|BB WL] eqn:HW.
  - unfold step. by rewrite HW.
  - destruct (decide (BB ∈ Visited st)) as [HV|HV].
    + rewrite (step_visited st BB WL HW HV). by eapply Inv_step_visited.
    + rewrite (step_unvisited st BB WL HW HV). by apply Inv_step_unvisited.
Qed.

Lemma Inv_loop Start fuel st :
  Inv F Condition Start st → Inv F Condition Start (loop F Condition fuel st).
Proof.
  revert st. induction fuel as [|fuel IH]; intros st I; simpl; [done|].
  destruct (WorkList st); [done|]. by apply IH, Inv_step.
Qed.

(** *** Termination *)

Lemma unscanned_mono V BB L :
  (unscanned ({[BB]} ∪ V) L ≤ unscanned V L)%nat.
Proof.
  induction L as [|[k b] L IH]; simpl; [done|].
  destruct (decide (k ∈ {[BB]} ∪ V)), (decide (k ∈ V)); try lia.
  set_solver.
Qed.

Lemma unscanned_visit V BB B L :
  (BB, B) ∈ L → BB ∉ V →
  (unscanned ({[BB]} ∪ V) L + length (term_successors (bbTerm B))
   ≤ unscanned V L)%nat.
Proof.
  intros Hin HV. induction L as [|[k b] L IH].
  - by apply not_elem_of_nil in Hin.
  - apply elem_of_cons in Hin as [[= <- <-]|Hin].
    + pose proof (unscanned_mono V BB L) as Hm. simpl.
      rewrite decide_True by set_solver. rewrite decide_False by done. lia.
    + specialize (IH Hin). simpl.
      destruct (decide (k ∈ {[BB]} ∪ V)), (decide (k ∈ V)); try lia.
      set_solver.
Qed.

Lemma unscanned_successors V BB :
  BB ∉ V →
  (unscanned ({[BB]} ∪ V) (map_to_list F) + length (successors F BB)
   ≤ unscanned V (map_to_list F))%nat.
Proof.
  intros HV. unfold successors. destruct (F !! BB) as [B|] eqn:HB.
  - apply unscanned_visit; [|done]. by apply elem_of_map_to_list.
  - simpl. pose proof (unscanned_mono V BB (map_to_list F)). lia.
Qed.

Lemma unscanned_empty L :
  unscanned ∅ L =
  sum_list ((λ kb, length (term_successors (bbTerm kb.2))) <$> L).
Proof. induction L as [|[k b] L IH]; simpl; [done|]. by rewrite IH. Qed.

Lemma measure_step st :
  WorkList st ≠ [] → (measure F (step F Condition st) < measure F st)%nat.
Proof.
  intros Hne. destruct (WorkList st) as [|BB WL] eqn:HW; [done|].
  destruct (decide (BB ∈ Visited st)) as [HV|HV].
  - rewrite (step_visited st BB WL HW HV). unfold measure. rewrite HW. simpl. lia.
  - rewrite (step_unvisited st BB WL HW HV). unfold measure.
    rewrite visit_scan_WorkList, visit_scan_Visited, HW, length_app. simpl.
    pose proof (unscanned_successors (Visited st) BB HV).
    pose proof (length_filter (λ v, (v ∉ {[BB]} ∪ Visited st) ∧ Condition BB v = true)
                  (successors F BB)).
    unfold pushed. lia.
Qed.

Lemma loop_terminates fuel st :
  (measure F st ≤ fuel)%nat → WorkList (loop F Condition fuel st) = [].
Proof.
  revert st. induction fuel as [|fuel IH]; intros st Hm; simpl.
  - unfold measure in Hm. destruct (WorkList st); [done|]. simpl in Hm. lia.
  - destruct (WorkList st) as [|BB WL] eqn:HW; [done|].
    apply IH. pose proof (measure_step st) as Hs. rewrite HW in Hs.
    specialize (Hs ltac:(done)). lia.
Qed.

(** Once the work list is empty, more fuel changes nothing. *)
Lemma loop_done fuel st : WorkList st = [] → loop F Condition fuel st = st.
Proof. intros HW. destruct fuel; simpl; [done|]. by rewrite HW. Qed.

Lemma loop_add n k st :
  loop F Condition (n + k) st = loop F Condition k (loop F Condition n st).
Proof.
  revert st. induction n as [|n IH]; intros st; simpl; [done|].
  destruct (WorkList st) eqn:HW; [|apply IH].
  by rewrite loop_done.
Qed.

Lemma measure_initial Start : measure F (initial Start) = S (arcsNum F).
Proof. unfold measure, arcsNum. simpl. by rewrite unscanned_empty. Qed.

End DFS_facts.

(** [runDFS] always leaves the loop: the work list is empty in the state
    it returns from. *)
Lemma runDFS_terminates F Start Condition :
  WorkList (runDFS_state F Start Condition) = [].
Proof.
  unfold runDFS_state. apply loop_terminates. by rewrite measure_initial.
Qed.

(** The result does not depend on the bound: any larger one gives the
    same state. *)
Lemma runDFS_fuel_irrelevant F Start Condition (fuel : nat) :
  (S (arcsNum F) ≤ fuel)%nat →
  loop F Condition fuel (initial Start) = runDFS_state F Start Condition.
Proof.
  intros Hf. replace fuel with (S (arcsNum F) + (fuel - S (arcsNum F)))%nat by lia.
  rewrite loop_add. apply loop_done, runDFS_terminates.
Qed.

Lemma runDFS_Inv F Start Condition :
  Inv F Condition Start (runDFS_state F Start Condition).
Proof. apply Inv_loop, Inv_initial. Qed.

(** ** Consequences of the invariant for the returned result *)

Section DFS_result.

Variable F : BlockStore.
Variable Start : Node.
Variable Condition : Node → Node → bool.

Let st := runDFS_state F Start Condition.
Let r := runDFS F Start Condition.

Lemma result_visited_key n :
  n ∈ numToNode r → is_Some (NodeToInfo r !! n).
Proof.
  intros Hn. pose proof (runDFS_Inv F Start Condition) as I.
  apply (inv_keys _ _ _ _ I).
  destruct (inv_visited_sched _ _ _ _ I n Hn) as [->|[u Hu]]; [by left|].
  right. exists u.
  destruct (inv_sched _ _ _ _ I u n Hu) as (_ & Hs & _ & Hv & _).
  split; [|done]. by apply (inv_visited _ _ _ _ I).
Qed.

Lemma result_info_at n info :
  NodeToInfo r !! n = Some info → info_at (NodeToInfo r) n = info.
Proof. intros H. unfold info_at. by rewrite H. Qed.

Lemma result_scheduled_visited u v :
  (u, v) ∈ Sched st → v ∈ numToNode r.
Proof.
  intros Huv. pose proof (runDFS_Inv F Start Condition) as I.
  destruct (inv_sched _ _ _ _ I u v Huv) as (_ & _ & _ & _ & Hw & _).
  apply (inv_visited _ _ _ _ I). destruct Hw as [Hw|Hw]; [|done].
  fold st in Hw. unfold st in Hw. rewrite runDFS_terminates in Hw.
  by apply not_elem_of_nil in Hw.
Qed.

Lemma result_parent_scheduled n :
  n ∈ numToNode r → n ≠ Start →
  ∃ u, Parent (info_at (NodeToInfo r) n) = Some u ∧
       last_sched n (Sched st) = Some u ∧ (u, n) ∈ Sched st.
Proof.
  intros Hn Hne. pose proof (runDFS_Inv F Start Condition) as I.
  destruct (inv_visited_sched _ _ _ _ I n Hn) as [->|[u Hu]]; [done|].
  destruct (last_sched_is_Some n _ u Hu) as [x Hx].
  exists x. split; [|split; [done|by apply last_sched_Some]].
  unfold r, runDFS. by rewrite (inv_parent _ _ _ _ I).
Qed.

Lemma result_start_unscheduled : last_sched Start (Sched st) = None.
Proof.
  pose proof (runDFS_Inv F Start Condition) as I.
  destruct (last_sched Start (Sched st)) as [u|] eqn:Hl; [|done].
  apply last_sched_Some in Hl.
  by destruct (inv_sched _ _ _ _ I u Start Hl) as (_ & _ & Hne & _).
Qed.

Lemma count_occ_replicate (n : nat) (a u : Node) :
  count_occ Pos.eq_dec (replicate n a) u = if decide (a = u) then n else 0%nat.
Proof.
  induction n as [|n IH]; simpl.
  - by case_decide.
  - rewrite IH. destruct (Pos.eq_dec a u), (decide (a = u)); congruence.
Qed.

Lemma preds_spec_cons (a : Node) (l : list Node) (v : Node) :
  preds_spec F (a :: l) v =
  (if decide (a = v) then []
   else replicate (count_occ Pos.eq_dec (successors F a) v) a) ++
  preds_spec F l v.
Proof. reflexivity. Qed.

Lemma count_occ_preds_spec (order : list Node) (u v : Node) :
  NoDup order →
  count_occ Pos.eq_dec (preds_spec F order v) u =
  if decide (u ≠ v ∧ u ∈ order)
  then count_occ Pos.eq_dec (successors F u) v else 0%nat.
Proof.
  intros Hnd. induction order as [|a l IH].
  - simpl. rewrite decide_False; [done|]. intros [_ H]. by apply not_elem_of_nil in H.
  - apply NoDup_cons in Hnd as [Ha Hnd]. specialize (IH Hnd).
    rewrite preds_spec_cons, count_occ_app, IH.
    destruct (decide (a = v)) as [->|Hav]; simpl.
    + destruct (decide (u ≠ v ∧ u ∈ l)) as [[? ?]|Hn].
      * rewrite decide_True; [done|]. split; [done|]. by apply list_elem_of_further.
      * rewrite decide_False; [done|]. rewrite elem_of_cons. naive_solver.
    + rewrite count_occ_replicate.
      destruct (decide (a = u)) as [->|Hau].
      * rewrite decide_False by naive_solver.
        rewrite decide_True; [lia|]. split; [done|]. apply list_elem_of_here.
      * destruct (decide (u ≠ v ∧ u ∈ l)) as [[? ?]|Hn].
        -- rewrite decide_True; [done|]. split; [done|]. by apply list_elem_of_further.
        -- rewrite decide_False; [done|]. rewrite elem_of_cons. naive_solver.
Qed.

Lemma result_predecessors v :
  Predecessors (info_at (NodeToInfo r) v) = preds_spec F (numToNode r) v.
Proof. apply (inv_preds _ _ _ _ (runDFS_Inv F Start Condition)). Qed.

End DFS_result.

(** * The visit order is a preorder of the DFS tree *)

Section DFS_preorder.

Variable F : BlockStore.
Variable Condition : Node → Node → bool.

Lemma before_elem_of l u v : before l u v → u ∈ l ∧ v ∈ l.
Proof.
  intros (i & j & _ & Hi & Hj). split; by eapply list_elem_of_lookup_2.
Qed.

Lemma before_snoc_inv l x u v :
  x ∉ l → before (l ++ [x]) u v → before l u v ∨ (u ∈ l ∧ v = x).
Proof.
  intros Hx (i & j & Hij & Hi & Hj).
  apply lookup_app_Some in Hj as [Hj|[Hlen Hj]].
  - left. exists i, j. split; [done|]. split; [|done].
    apply lookup_lt_Some in Hj.
    rewrite lookup_app_l in Hi by lia. done.
  - right. apply list_lookup_singleton_Some in Hj as [Hj ->].
    split; [|done]. rewrite lookup_app_l in Hi by lia.
    by eapply list_elem_of_lookup_2.
Qed.

Lemma before_irrefl l u : NoDup l → ¬ before l u u.
Proof.
  intros Hnd (i & j & Hij & Hi & Hj).
  pose proof (NoDup_lookup l i j u Hnd Hi Hj). lia.
Qed.

Lemma tree_edge_visit_scan st BB WL Start u v :
  Inv F Condition Start st →
  tree_edge (Res st) u v → tree_edge (Res (visit_scan F Condition BB WL st)) u v.
Proof.
  intros I [Hv Hp]. split.
  - rewrite visit_scan_numToNode. apply elem_of_app. by left.
  - rewrite visit_scan_info_at. simpl. rewrite decide_False; [done|].
    rewrite elem_of_pushed. intros (_ & Hn & _). apply Hn.
    apply elem_of_union_r. by apply (inv_visited _ _ _ _ I).
Qed.

Lemma descendant_visit_scan st BB WL Start u v :
  Inv F Condition Start st →
  descendant (Res st) u v →
  descendant (Res (visit_scan F Condition BB WL st)) u v.
Proof.
  intros I. apply rtc_subrel. intros a b. by eapply tree_edge_visit_scan.
Qed.

Lemma tree_edge_visit_scan_inv st BB WL Start u v :
  Inv F Condition Start st → BB ∉ Visited st →
  tree_edge (Res (visit_scan F Condition BB WL st)) u v →
  tree_edge (Res st) u v ∨
  (v = BB ∧ Parent (info_at (NodeToInfo (Res st)) BB) = Some u).
Proof.
  intros I HV [Hv Hp].
  rewrite visit_scan_numToNode in Hv. rewrite visit_scan_info_at in Hp.
  simpl in Hp.
  assert (Hnp : v ∉ pushed Condition BB ({[BB]} ∪ Visited st) (successors F BB)).
  { rewrite elem_of_pushed. intros (_ & Hn & _). apply Hn.
    apply elem_of_app in Hv as [Hv|Hv].
    - apply elem_of_union_r. by apply (inv_visited _ _ _ _ I).
    - apply list_elem_of_singleton in Hv. set_solver. }
  rewrite decide_False in Hp by done.
  apply elem_of_app in Hv as [Hv|Hv].
  - left. by split.
  - apply list_elem_of_singleton in Hv as ->. by right.
Qed.

Lemma Pre_step_visited Start st BB WL :
  Inv F Condition Start st → Pre Start st →
  WorkList st = BB :: WL → BB ∈ Visited st →
  Pre Start {| Res := Res st; Visited := Visited st;
               WorkList := WL; Sched := Sched st |}.
Proof.
  intros I [[Hn _]|[WLp HP]] HW HV.
  { apply (inv_visited _ _ _ _ I) in HV. rewrite Hn in HV.
    by apply not_elem_of_nil in HV. }
  right. destruct HP as [Hwl Hord Haft Hpar Hcon].
  rewrite HW in Hwl. symmetry in Hwl.
  apply fmap_cons_inv in Hwl as (e0 & tail & He0 & -> & ->).
  exists tail. split; simpl.
  - done.
  - intros i j e e' Hij Hi Hj. apply (Hord (S i) (S j)); [lia|done|done].
  - intros e x He. apply Haft. by apply list_elem_of_further.
  - intros j e Hj Hne Habove. apply (Hpar (S j)); [done|done|].
    intros [|i] e' Hi He'.
    + injection He' as <-. intros Heq. apply Hne.
      rewrite <- Heq, <- He0. by apply (inv_visited _ _ _ _ I).
    + apply (Habove i); [lia|done].
  - done.
Qed.

Lemma Pre_step_unvisited Start st BB WL :
  Inv F Condition Start st → Pre Start st →
  WorkList st = BB :: WL → BB ∉ Visited st →
  Pre Start (visit_scan F Condition BB WL st).
Proof.
  intros I HPre HW HV. right.
  set (news := (λ w, (BB, w)) <$>
                 pushed Condition BB ({[BB]} ∪ Visited st) (successors F BB)).
  assert (HBBl : BB ∉ numToNode (Res st)) by (by rewrite <- (inv_visited _ _ _ _ I)).
  assert (Hnd : NoDup (numToNode (Res st) ++ [BB])).
  { apply NoDup_app. split; [apply (inv_nodup _ _ _ _ I)|].
    split; [|apply NoDup_singleton].
    intros x Hx Hx'. apply list_elem_of_singleton in Hx'. by subst. }
  assert (Hnews : ∀ (i : nat) e, news !! i = Some e →
            e.1 = BB ∧
            e.2 ∈ pushed Condition BB ({[BB]} ∪ Visited st) (successors F BB)).
  { intros i e He. unfold news in He. apply list_lookup_fmap_Some in He
      as (w & -> & Hw). split; [done|]. by eapply list_elem_of_lookup_2. }
  assert (Hparent_new : ∀ w,
            w ∈ pushed Condition BB ({[BB]} ∪ Visited st) (successors F BB) →
            Parent (info_at (NodeToInfo (Res (visit_scan F Condition BB WL st))) w)
            = Some BB).
  { intros w Hw. rewrite visit_scan_info_at. simpl. by rewrite decide_True. }
  destruct HPre as [[Hn HWS]|[WLp HP]].
  - (* the first iteration: [BB] is [Start] *)
    rewrite HW in HWS. injection HWS as -> ->.
    exists news. split.
    + rewrite visit_scan_WorkList, app_nil_r. unfold news.
      rewrite <- list_fmap_compose. simpl. by rewrite list_fmap_id.
    + intros i j e e' _ Hi Hj.
      destruct (Hnews _ _ Hi) as [-> _]. destruct (Hnews _ _ Hj) as [-> _].
      apply rtc_refl.
    + intros e x _ Hb. rewrite visit_scan_numToNode, Hn in Hb. simpl in Hb.
      destruct Hb as (i & j & Hij & Hi & Hj).
      apply lookup_lt_Some in Hj. simpl in Hj. lia.
    + intros j e Hj _ _. destruct (Hnews _ _ Hj) as [-> Hp].
      by apply Hparent_new.
    + intros u v w He.
      eapply tree_edge_visit_scan_inv in He as [[Hv _]|[-> Hp]]; try done.
      * rewrite Hn in Hv. by apply not_elem_of_nil in Hv.
      * rewrite (inv_parent _ _ _ _ I) in Hp.
        destruct (inv_start _ _ _ _ I) as [(_ & Hs & _)|Hh].
        -- by rewrite Hs in Hp.
        -- by rewrite Hn in Hh.
  - destruct HP as [Hwl Hord Haft Hpar Hcon].
    rewrite HW in Hwl. symmetry in Hwl.
    apply fmap_cons_inv in Hwl as (e0 & tail & He0 & HWL & ->).
    destruct e0 as [p0 BB']. simpl in He0. subst BB'.
    assert (Hp0 : Parent (info_at (NodeToInfo (Res st)) BB) = Some p0).
    { apply (Hpar 0%nat (p0, BB)); [done|done|]. intros i e' Hi. lia. }
    assert (Hedge : tree_edge (Res (visit_scan F Condition BB WL st)) p0 BB).
    { split.
      - rewrite visit_scan_numToNode. apply elem_of_app. right.
        apply list_elem_of_here.
      - rewrite visit_scan_info_at. simpl. rewrite decide_False; [done|].
        rewrite elem_of_pushed. intros (_ & Hn & _). set_solver. }
    assert (Hdesc_tail : ∀ e, e ∈ tail →
              descendant (Res (visit_scan F Condition BB WL st)) e.1 BB).
    { intros e He. apply list_elem_of_lookup in He as [j Hj].
      eapply rtc_r; [|exact Hedge].
      eapply descendant_visit_scan; [done|].
      apply (Hord 0%nat (S j) e (p0, BB)); [lia|done|done]. }
    exists (news ++ tail). split.
    + rewrite visit_scan_WorkList, fmap_app, HWL. f_equal. unfold news.
      rewrite <- list_fmap_compose. simpl. by rewrite list_fmap_id.
    + intros i j e e' Hij Hi Hj.
      apply lookup_app_Some in Hi as [Hi|[Hli Hi]];
        apply lookup_app_Some in Hj as [Hj|[Hlj Hj]].
      * destruct (Hnews _ _ Hi) as [-> _]. destruct (Hnews _ _ Hj) as [-> _].
        apply rtc_refl.
      * destruct (Hnews _ _ Hi) as [-> _]. apply Hdesc_tail.
        by eapply list_elem_of_lookup_2.
      * apply lookup_lt_Some in Hj. lia.
      * eapply descendant_visit_scan; [done|].
        apply (Hord (S (i - length news)) (S (j - length news))); [lia|done|done].
    + intros e x He Hb. rewrite visit_scan_numToNode in Hb.
      apply elem_of_app in He as [He|He].
      * apply list_elem_of_lookup in He as [i Hi].
        destruct (Hnews _ _ Hi) as [HeBB _]. rewrite HeBB in *.
        apply before_snoc_inv in Hb as [Hb|[Hb _]]; [|done|done].
        by apply before_elem_of in Hb as [Hb _].
      * apply before_snoc_inv in Hb as [Hb|[_ ->]]; [|by apply Hdesc_tail|done].
        eapply descendant_visit_scan; [done|].
        apply Haft; [by apply list_elem_of_further|done].
    + intros j e Hj Hne Habove.
      apply lookup_app_Some in Hj as [Hj|[Hlj Hj]].
      * destruct (Hnews _ _ Hj) as [-> Hp]. by apply Hparent_new.
      * rewrite visit_scan_numToNode in Hne.
        apply not_elem_of_app in Hne as [Hne HneBB].
        rewrite list_elem_of_singleton in HneBB.
        assert (Hnp : e.2 ∉ pushed Condition BB ({[BB]} ∪ Visited st)
                              (successors F BB)).
        { intros Hp. apply list_elem_of_lookup in Hp as [i Hi].
          assert (Hi' : news !! i = Some (BB, e.2)).
          { unfold news. by rewrite list_lookup_fmap, Hi. }
          apply (Habove i (BB, e.2)); [|by apply lookup_app_l_Some|done].
          apply lookup_lt_Some in Hi'. lia. }
        rewrite visit_scan_info_at. simpl. rewrite decide_False by done.
        apply (Hpar (S (j - length news))); [done|done|].
        intros [|i] e' Hi He'.
        -- injection He' as <-. simpl. by apply not_eq_sym.
        -- simpl in He'. apply (Habove (length news + i)%nat); [lia|].
           rewrite lookup_app_r by lia.
           by replace (length news + i - length news)%nat with i by lia.
    + intros u v w He Huw Hwv.
      rewrite visit_scan_numToNode in Huw, Hwv.
      eapply tree_edge_visit_scan_inv in He as [He|[-> Hp]]; try done.
      * eapply descendant_visit_scan; [done|].
        destruct He as [Hv Hpv].
        apply before_snoc_inv in Hwv as [Hwv|[_ ->]]; [|done|done].
        apply before_snoc_inv in Huw as [Huw|[_ ->]]; [| |done].
        -- apply (Hcon u v w); [by split|done|done].
        -- by apply before_elem_of in Hwv as [Hwv _].
      * assert (u = p0) as -> by congruence.
        apply before_snoc_inv in Huw as [Huw|[_ ->]]; [| |done].
        -- eapply descendant_visit_scan; [done|].
           apply (Haft (p0, BB)); [apply list_elem_of_here|done].
        -- by apply before_irrefl in Hwv.
Qed.

Lemma Pre_initial Start : Pre Start (initial Start).
Proof. by left. Qed.

Lemma Pre_loop Start fuel st :
  Inv F Condition Start st → Pre Start st →
  Pre Start (loop F Condition fuel st).
Proof.
  revert st. induction fuel as [|fuel IH]; intros st I HP; simpl; [done|].
  destruct (WorkList st) as [|BB WL] eqn:HW; [done|].
  apply IH; [by apply Inv_step|].
  destruct (decide (BB ∈ Visited st)) as [HV|HV].
  - rewrite (step_visited F Condition st BB WL HW HV).
    by eapply Pre_step_visited.
  - rewrite (step_unvisited F Condition st BB WL HW HV).
    by apply Pre_step_unvisited.
Qed.

End DFS_preorder.

(** Between a parent and its child the walk visits descendants of the
    parent only. *)
Lemma runDFS_contiguous F Start Condition u v w :
  tree_edge (runDFS F Start Condition) u v →
  before (numToNode (runDFS F Start Condition)) u w →
  before (numToNode (runDFS F Start Condition)) w v →
  descendant (runDFS F Start Condition) u w.
Proof.
  intros He Huw Hwv.
  pose proof (Pre_loop F Condition Start (S (arcsNum F)) (initial Start)
                (Inv_initial F Condition Start) (Pre_initial Start)) as HP.
  fold (runDFS_state F Start Condition) in HP.
  destruct HP as [[Hn _]|[WLp HP]].
  - destruct He as [Hv _]. unfold runDFS in Hv. rewrite Hn in Hv.
    by apply not_elem_of_nil in Hv.
  - by apply (p_contig _ _ HP u v w).
Qed.

(** * Properties of [toCFG] *)

Lemma usub_pred (k : N) : 1 ≤ k → k < UINT_MOD → usub k 1 = k - 1.
Proof.
  intros H1 H2. unfold usub, UINT_MOD in *.
  rewrite (N.mod_small 1) by lia.
  replace (k + 2 ^ 32 - 1) with ((k - 1) + 1 * 2 ^ 32) by lia.
  rewrite N.Div0.mod_add. apply N.mod_small. lia.
Qed.

Lemma Built_empty (n entry : N) :
  Built n entry ∅ (∅, replicate (N.to_nat n) None, ∅).
Proof.
  split; simpl.
  - intros k. rewrite lookup_empty. split; [by intros []|set_solver].
  - set_solver.
  - intros k h. by rewrite lookup_empty.
  - intros k h. by rewrite lookup_empty.
  - intros k k' h. by rewrite lookup_empty.
  - intros h. rewrite lookup_empty. by intros [].
  - apply length_replicate.
Qed.

Lemma Built_add (n entry : N) (S : gset N) (s : BuildState) (k : N) :
  Built n entry S s → k ∉ S → 1 ≤ k ≤ n → n < UINT_MOD →
  Built n entry ({[k]} ∪ S) (addBlock (block_name entry k) k s).
Proof.
  intros [Hdom Hrange Hblocks Hstore Hinj Himg Hlen] HkS Hk Hn.
  destruct s as [[F Blocks] M]. simpl in *.
  unfold addBlock, BasicBlock_Create.
  set (h := fresh (dom F)).
  assert (Hfresh : F !! h = None).
  { apply not_elem_of_dom. apply is_fresh. }
  assert (HMk : M !! k = None).
  { destruct (M !! k) eqn:E; [|done]. exfalso. apply HkS, Hdom. by eexists. }
  assert (Hnew : ∀ k' h', M !! k' = Some h' → h' ≠ h).
  { intros k' h' Hk' ->. apply Hstore in Hk'. congruence. }
  rewrite usub_pred by lia.
  split; simpl.
  - intros k'. rewrite lookup_insert. case_decide; subst.
    + split; [set_solver|]. intros _. by eexists.
    + rewrite Hdom. set_solver.
  - intros k' Hk'. apply elem_of_union in Hk' as [Hk'|Hk'].
    + apply elem_of_singleton in Hk' as ->. done.
    + by apply Hrange.
  - intros k' h'. rewrite lookup_insert. case_decide; subst.
    + intros [= <-]. apply list_lookup_insert_eq. lia.
    + intros Hk'. rewrite list_lookup_insert_ne.
      * by apply Hblocks.
      * assert (1 ≤ k' ≤ n) by (apply Hrange, Hdom; by eexists). lia.
  - intros k' h'. rewrite lookup_insert. case_decide; subst.
    + intros [= <-]. by rewrite lookup_insert_eq.
    + intros Hk'. rewrite lookup_insert_ne by (by eapply not_eq_sym, Hnew).
      by apply Hstore.
  - intros k1 k2 h'. rewrite !lookup_insert.
    repeat case_decide; subst; try done.
    + intros [= <-] Hk2. by apply Hnew in Hk2.
    + intros Hk1 [= <-]. by apply Hnew in Hk1.
    + apply Hinj.
  - intros h'. rewrite lookup_insert. case_decide; subst.
    + intros _. exists k. by rewrite lookup_insert_eq.
    + intros Hh'. destruct (Himg h' Hh') as [k' Hk']. exists k'.
      rewrite lookup_insert_ne; [done|]. intros ->. congruence.
  - by rewrite length_insert.
Qed.

Lemma Built_makeNodes (n entry : N) (l : list N) (S : gset N) (s : BuildState) :
  n < UINT_MOD →
  Built n entry S s → NoDup l → (∀ i, i ∈ l → 1 ≤ i ≤ n) →
  entry ∈ S → (∀ i, i ∈ l → i ∈ S → i = entry) →
  Built n entry (S ∪ list_to_set l) (foldl (makeNode entry) s l).
Proof.
  intros Hn. revert S s. induction l as [|i l IH]; intros S s HB Hnd Hr He Hs.
  - simpl. by rewrite union_empty_r_L.
  - apply NoDup_cons in Hnd as [Hi Hnd]. simpl.
    unfold makeNode at 2. destruct (decide (i ≠ entry)) as [Hne|Heq].
    + assert (HiS : i ∉ S).
      { intros HiS. apply Hne, Hs; [apply list_elem_of_here|done]. }
      replace (MakeName "n_" i) with (block_name entry i)
        by (unfold block_name; by rewrite decide_False).
      replace (S ∪ ({[i]} ∪ list_to_set l)) with (({[i]} ∪ S) ∪ list_to_set l)
        by set_solver.
      apply IH; try done.
      * apply Built_add; try done. apply Hr, list_elem_of_here.
      * intros j Hj. apply Hr. by apply list_elem_of_further.
      * set_solver.
      * intros j Hj HjS. apply elem_of_union in HjS as [HjS|HjS].
        -- apply elem_of_singleton in HjS as ->. done.
        -- apply Hs; [by apply list_elem_of_further|done].
    + assert (i = entry) as -> by (by destruct (decide (i = entry))).
      replace (S ∪ ({[entry]} ∪ list_to_set l)) with (S ∪ list_to_set l)
        by set_solver.
      apply IH; try done.
      * intros j Hj. apply Hr. by apply list_elem_of_further.
      * intros j Hj HjS. apply Hs; [by apply list_elem_of_further|done].
Qed.

Lemma term_successors_switch_of (ts : list Node) :
  term_successors (switch_of ts) = ts.
Proof.
  destruct ts as [|d cs]; [done|]. simpl. unfold switch_successors. simpl.
  f_equal. rewrite fmap_imap.
  rewrite (imap_ext _ (const id)) by done.
  by rewrite imap_const, list_fmap_id.
Qed.

Lemma connect_switch_of (F : BlockStore) (From To : Node) (nm : string)
    (ts : list Node) :
  F !! From = Some {| bbName := nm; bbTerm := switch_of ts |} →
  connect From To F =
  Returned (<[From := {| bbName := nm; bbTerm := switch_of (ts ++ [To]) |}]> F).
Proof.
  intros HF. unfold connect. rewrite HF. simpl.
  destruct ts as [|d cs]; simpl; [done|].
  unfold set_term. simpl. do 4 f_equal.
  rewrite imap_app, length_imap. simpl. by rewrite Nat.add_0_r.
Qed.

Lemma arc_targets_snoc (M : gmap N Node) (k : N) (done : list (N * N))
    (x y : N) (hy : Node) :
  M !! y = Some hy →
  arc_targets M k (done ++ [(x, y)]) =
  arc_targets M k done ++ (if decide (x = k) then [hy] else []).
Proof.
  intros Hy. unfold arc_targets. rewrite omap_app. f_equal. simpl.
  destruct (decide (x = k)); [by rewrite Hy|done].
Qed.

Lemma connectArcs_spec (n entry : N) (Blocks : list (option Node))
    (M : gmap N Node) (rest done : list (N * N)) (F : BlockStore) :
  n < UINT_MOD →
  (∀ k, 1 ≤ k ≤ n →
     ∃ h, M !! k = Some h ∧ Blocks !! N.to_nat (k - 1) = Some (Some h)) →
  (∀ k k' h, M !! k = Some h → M !! k' = Some h → k = k') →
  Connected entry M done F →
  Forall (λ a, (1 ≤ a.1 ≤ n) ∧ (1 ≤ a.2 ≤ n)) rest →
  ∃ F', connectArcs Blocks rest F = Returned F' ∧
        Connected entry M (done ++ rest) F'.
Proof.
  intros Hn HB Hinj. revert done F.
  induction rest as [|[x y] rest IH]; intros done F HC Hrest.
  - exists F. rewrite app_nil_r. done.
  - apply Forall_cons in Hrest as [[Hx Hy] Hrest]. simpl in Hx, Hy.
    destruct (HB x Hx) as (hx & HMx & HBx).
    destruct (HB y Hy) as (hy & HMy & HBy).
    destruct HC as [Hstore Himg].
    cbn [connectArcs]. cbn [fst snd].
    unfold Blocks_at. rewrite !usub_pred by lia. rewrite HBx, HBy. simpl.
    rewrite (connect_switch_of F hx hy _ _ (Hstore x hx HMx)). simpl.
    replace (done ++ (x, y) :: rest) with ((done ++ [(x, y)]) ++ rest)
      by (by rewrite <- app_assoc).
    apply IH; [|done]. split.
    + intros k h Hk. rewrite (arc_targets_snoc M k done x y hy HMy).
      destruct (decide (x = k)) as [->|Hne].
      * assert (h = hx) as -> by congruence. by rewrite lookup_insert_eq.
      * rewrite app_nil_r. rewrite lookup_insert_ne.
        -- by apply Hstore.
        -- intros ->. apply Hne. by eapply Hinj.
    + intros h. rewrite lookup_insert. case_decide; subst.
      * intros _. by exists x.
      * apply Himg.
Qed.

Lemma Built_Connected (n entry : N) (S : gset N) (F : BlockStore)
    (Blocks : list (option Node)) (M : gmap N Node) :
  Built n entry S (F, Blocks, M) → Connected entry M [] F.
Proof.
  intros [Hdom Hrange Hblocks Hstore Hinj Himg Hlen]. simpl in *.
  split; [|done]. intros k h Hk. by apply Hstore.
Qed.

Lemma nodes_set (n : N) (k : N) :
  k ∈ (list_to_set (N.of_nat <$> seq 1 (N.to_nat n)) : gset N) ↔ 1 ≤ k ≤ n.
Proof.
  rewrite elem_of_list_to_set, list_elem_of_fmap. split.
  - intros (i & -> & Hi). apply elem_of_seq in Hi. lia.
  - intros Hk. exists (N.to_nat k). split; [by rewrite N2Nat.id|].
    apply elem_of_seq. lia.
Qed.

Lemma makeNodes_entry (entry : N) (l : list N) (s : BuildState) :
  (foldl (makeNode entry) s l).2 !! entry = s.2 !! entry.
Proof.
  revert s. induction l as [|i l IH]; intros s; [done|].
  simpl. rewrite IH. unfold makeNode. case_decide; [|done].
  destruct s as [[F Blocks] M]. unfold addBlock, BasicBlock_Create. simpl.
  by rewrite lookup_insert_ne.
Qed.

(** The outcome of [toCFG] on a well-formed graph. *)
Lemma toCFG_spec (g : InputGraph) :
  wf_input g →
  ∃ EntryBB F M,
    toCFG g =
      Returned (EntryBB,
                {| nodesNum := nodesNum g; entry := entry g; arcs := arcs g;
                   updates := updates g; updateIdx := updateIdx g;
                   cfg := Some {| function := F; numToBB := M |} |}) ∧
    M !! entry g = Some EntryBB ∧
    (∀ k, is_Some (M !! k) ↔ 1 ≤ k ≤ nodesNum g) ∧
    (∀ k k' h, M !! k = Some h → M !! k' = Some h → k = k') ∧
    Connected (entry g) M (arcs g) F.
Proof.
  intros (He & Hn & Harcs). unfold toCFG.
  rewrite decide_True by (rewrite usub_pred by lia; lia).
  rewrite decide_True by done.
  unfold BasicBlock_Create.
  set (EntryBB := fresh (dom (∅ : BlockStore))).
  set (s1 := (_, _, _) : BuildState).
  assert (HB1 : Built (nodesNum g) (entry g) ({[entry g]} ∪ ∅) s1).
  { pose proof (Built_add (nodesNum g) (entry g) ∅ _ (entry g)
                  (Built_empty (nodesNum g) (entry g))) as HA.
    unfold addBlock, BasicBlock_Create, block_name in HA.
    rewrite decide_True in HA by done. rewrite insert_empty in HA.
    apply HA; [set_solver|lia|lia]. }
  pose proof (Built_makeNodes (nodesNum g) (entry g)
                (N.of_nat <$> seq 1 (N.to_nat (nodesNum g))) _ s1
                ltac:(lia) HB1) as HB2.
  destruct (foldl (makeNode (entry g)) s1
              (N.of_nat <$> seq 1 (N.to_nat (nodesNum g))))
    as [[F2 Blocks2] M2] eqn:Hfold.
  assert (HB : Built (nodesNum g) (entry g)
                 ({[entry g]} ∪ ∅ ∪
                  list_to_set (N.of_nat <$> seq 1 (N.to_nat (nodesNum g))))
                 (F2, Blocks2, M2)).
  { apply HB2.
    - apply NoDup_fmap_2; [|apply NoDup_seq]. intros a b. lia.
    - intros i Hi. apply list_elem_of_fmap in Hi as (j & -> & Hj).
      apply elem_of_seq in Hj. lia.
    - set_solver.
    - intros i _ Hi. set_solver. }
  clear HB2 HB1.
  assert (Hdom : ∀ k, is_Some (M2 !! k) ↔ 1 ≤ k ≤ nodesNum g).
  { intros k. rewrite (b_dom _ _ _ _ HB k). simpl.
    rewrite !elem_of_union, nodes_set, elem_of_singleton.
    split; [|tauto]. intros [[->|Hk]|Hk]; [lia|set_solver|lia]. }
  destruct (connectArcs_spec (nodesNum g) (entry g) Blocks2 M2 (arcs g) [] F2)
    as (F3 & HF3 & HC); try done.
  - unfold UINT_MOD in *. lia.
  - intros k Hk. destruct (proj2 (Hdom k) Hk) as [h Hh]. exists h.
    split; [done|]. by apply (b_blocks _ _ _ _ HB).
  - apply (b_inj _ _ _ _ HB).
  - by eapply Built_Connected.
  - rewrite HF3. simpl. exists EntryBB, F3, M2.
    split; [done|]. split; [|split; [done|split; [apply (b_inj _ _ _ _ HB)|done]]].
    pose proof (makeNodes_entry (entry g)
                  (N.of_nat <$> seq 1 (N.to_nat (nodesNum g))) s1) as Hent.
    rewrite Hfold in Hent. simpl in Hent. rewrite Hent.
    apply lookup_singleton_eq.
Qed.

(** * Further lemmas used by the claims *)

(** The predecessor list of a scanned successor, by counting. *)
Lemma scanned_arc_predecessor_count
    (F : BlockStore) (Start : Node) (Condition : Node → Node → bool) (u v : Node) :
  u ∈ numToNode (runDFS F Start Condition) →
  v ∈ successors F u →
  ∃ info, NodeToInfo (runDFS F Start Condition) !! v = Some info ∧
          (u ∈ Predecessors info ↔ u ≠ v) ∧
          count_occ Pos.eq_dec (Predecessors info) u =
          (if decide (u = v) then 0%nat
           else count_occ Pos.eq_dec (successors F u) v).
Proof.
  intros Hu Hv.
  pose proof (runDFS_Inv F Start Condition) as I.
  assert (Hk : is_Some (NodeToInfo (runDFS F Start Condition) !! v)).
  { apply (inv_keys _ _ _ _ I). right. by exists u. }
  destruct Hk as [info Hi]. exists info. split; [done|].
  assert (Hc : count_occ Pos.eq_dec (Predecessors info) u =
               if decide (u = v) then 0%nat
               else count_occ Pos.eq_dec (successors F u) v).
  { rewrite <- (result_info_at F Start Condition v info Hi).
    rewrite result_predecessors, count_occ_preds_spec
      by apply (inv_nodup _ _ _ _ I).
    destruct (decide (u = v)) as [->|Hne].
    - rewrite decide_False; [done|]. naive_solver.
    - by rewrite decide_True. }
  split; [|done].
  rewrite list_elem_of_In, (count_occ_In Pos.eq_dec), Hc.
  destruct (decide (u = v)) as [->|Hne].
  - split; [lia|done].
  - split; [done|]. intros _.
    by apply (count_occ_In Pos.eq_dec), list_elem_of_In.
Qed.

Lemma arc_targets_Forall2 (M : gmap N Node) (k : N) (arcs : list (N * N)) :
  Forall (λ a, is_Some (M !! a.2)) arcs →
  Forall2 (λ a h, M !! a.2 = Some h)
          (filter (λ a, a.1 = k) arcs) (arc_targets M k arcs).
Proof.
  induction 1 as [|[x y] arcs [h Hh] _ IH]; [constructor|].
  unfold arc_targets. rewrite filter_cons. simpl in *.
  destruct (decide (x = k)); [|done].
  rewrite Hh. by constructor.
Qed.

Lemma readLine_Abort_nonempty (G : InputGraph) (Line msg : string) :
  readLine G Line = Abort msg → Line ≠ EmptyString.
Proof. by intros H ->. Qed.

(** The loop ends at the first line that aborts. *)
Lemma readLoop_abort (pre : list string) (G0 G : InputGraph) (Line : string)
    (post : list string) (msg : string) :
  Forall (λ l, l ≠ EmptyString) pre →
  readLoop G0 pre = Returned G →
  readLine G Line = Abort msg →
  readLoop G0 (pre ++ Line :: post) = Abort msg.
Proof.
  intros Hpre. revert G0. induction Hpre as [|l pre Hl _ IH]; intros G0 Hloop HL.
  - simpl in Hloop. injection Hloop as ->. simpl.
    rewrite decide_False by (by eapply readLine_Abort_nonempty).
    by rewrite HL.
  - simpl in *. rewrite decide_False in * by done.
    destruct (readLine G0 l) as [G1| |]; simpl in *; try done.
    by apply IH.
Qed.

Lemma readLine_unknown (G : InputGraph) (Line : string) :
  unknown_opcode Line → readLine G Line = Abort "Unknown action".
Proof.
  intros (Action & rest & Hs & Hn). unfold readLine. rewrite Hs.
  unfold known_opcodes in Hn. rewrite !not_elem_of_cons in Hn.
  destruct Hn as (? & ? & ? & ? & ? & _).
  by rewrite !decide_False by done.
Qed.

Lemma readLine_second_header (G : InputGraph) (Line : string) :
  second_header G Line → readLine G Line = Abort "Double init?".
Proof.
  intros (Hn & rest & Hs). unfold readLine. rewrite Hs.
  rewrite decide_True by done. by rewrite decide_False.
Qed.

Lemma readLine_malformed (G : InputGraph) (Line : string) :
  malformed_line G Line → readLine G Line = Abort "Parse error".
Proof.
  intros (Action & rest & Hs & [(-> & Hn & He)|(Ha & He)]);
    unfold readLine; rewrite Hs.
  - rewrite decide_True by done. rewrite decide_True by done. by rewrite He.
  - rewrite !elem_of_cons in Ha. destruct Ha as [->|[->|[->|Ha]]].
    + simpl. by rewrite He.
    + simpl. unfold readUpdate. by rewrite He.
    + simpl. unfold readUpdate. by rewrite He.
    + by apply not_elem_of_nil in Ha.
Qed.

Lemma removeCase_Permutation (cs : list (N * Node)) (i : nat) (x : N * Node) :
  cs !! i = Some x → x :: removeCase i cs ≡ₚ cs.
Proof.
  intros Hi. unfold removeCase.
  destruct (list_elem_of_split_length cs i x Hi) as (l1 & l2 & -> & Hlen).
  destruct l2 as [|y l2 _] using rev_ind.
  - rewrite last_snoc. rewrite list_insert_id by done.
    rewrite length_app. simpl. rewrite Nat.add_sub.
    rewrite take_app_length. by rewrite Permutation_cons_append.
  - rewrite app_comm_cons, app_assoc, last_snoc.
    rewrite <- app_assoc, <- app_comm_cons.
    rewrite Hlen, insert_app_r_alt, Nat.sub_diag by lia. simpl.
    replace (length (l1 ++ x :: l2 ++ [y]) - 1)%nat
      with (length (l1 ++ y :: l2))
      by (rewrite !length_app; simpl; rewrite length_app; simpl; lia).
    replace (l1 ++ y :: l2 ++ [y]) with ((l1 ++ y :: l2) ++ [y])
      by (by rewrite <- app_assoc).
    rewrite take_app_length.
    rewrite <- (Permutation_middle l1 (l2 ++ [y]) x).
    apply perm_skip.
    rewrite <- (Permutation_middle l1 l2 y).
    by rewrite app_assoc, <- Permutation_cons_append.
Qed.

(** Where the arc exists, [disconnect] removes one arc [From → To] and
    nothing else: the successors of [From] lose one occurrence of [To],
    and no other block changes. *)
Lemma disconnect_existing_arc (F : BlockStore) (From To : Node) :
  To ∈ successors F From → is_Some (F !! To) →
  ∃ F', disconnect From To F = Returned F' ∧
        To :: successors F' From ≡ₚ successors F From ∧
        ∀ BB, BB ≠ From → F' !! BB = F !! BB.
Proof.
  intros Hin [BT HT]. unfold successors in Hin. unfold disconnect.
  destruct (F !! From) as [B|] eqn:HB; [|by apply not_elem_of_nil in Hin].
  rewrite HT. destruct (bbTerm B) as [SI|] eqn:HSI;
    [|by apply not_elem_of_nil in Hin].
  simpl in Hin. unfold switch_successors in Hin.
  destruct (Cases SI) as [|FirstC cs] eqn:HC.
  - eexists. split; [done|]. split.
    + unfold successors. rewrite lookup_insert_eq. simpl.
      apply list_elem_of_singleton in Hin. rewrite HB, HSI. simpl.
      unfold switch_successors. by rewrite HC, Hin.
    + intros BB Hne. by rewrite lookup_insert_ne.
  - destruct (decide (DefaultDest SI = To)) as [Hd|Hd].
    + eexists. split; [done|]. split.
      * unfold successors. rewrite lookup_insert_eq, HB, HSI. simpl.
        unfold switch_successors. simpl. rewrite HC, Hd.
        apply perm_skip.
        rewrite <- (removeCase_Permutation (FirstC :: cs) 0 FirstC eq_refl) at 2.
        done.
      * intros BB Hne. by rewrite lookup_insert_ne.
    + apply elem_of_cons in Hin as [Hin|Hin]; [done|].
      apply list_elem_of_fmap in Hin as (c & Hc & Hcin).
      destruct (list_find_elem_of (λ c, c.2 = To) (FirstC :: cs) c Hcin
                  (eq_sym Hc)) as [[i x] Hfind].
      rewrite Hfind. eexists. split; [done|]. split.
      * unfold successors. rewrite lookup_insert_eq, HB, HSI. simpl.
        unfold switch_successors. simpl. rewrite HC.
        apply list_find_Some in Hfind as (Hix & Hx & _).
        rewrite <- (removeCase_Permutation (FirstC :: cs) i x Hix) at 2.
        rewrite fmap_cons, Hx. apply perm_swap.
      * intros BB Hne. by rewrite lookup_insert_ne.
Qed.

(** * The claims *)

(** C1, as stated, fails: the scan of the self-loop [1 → 1] does not put
    [1] into the predecessor list of [1]. *)
Lemma self_loop_not_recorded : ¬ records_every_scanned_arc G_self 1%positive always.
Proof.
  intros H. destruct (H 1%positive 1%positive) as (info & Hi & Hp).
  - vm_compute. apply list_elem_of_here.
  - vm_compute. apply list_elem_of_here.
  - vm_compute in Hi. injection Hi as <-. simpl in Hp.
    by apply not_elem_of_nil in Hp.
Qed.

(** C1, amended. For every arc [(u, v)] with [v ≠ u] scanned during the
    walk, that is for every visited [u] and every successor [v] of [u],
    whether or not [v] was visited already and whatever [Condition] says,
    [u] is in the predecessor list of [v], once for each arc from [u] to
    [v]: no scanned arc is pruned.  The scan of a self-loop [(u, u)]
    records nothing: [u] is not in its own predecessor list. *)
Theorem runDFS_records_every_non_self_arc
    (F : BlockStore) (Start : Node) (Condition : Node → Node → bool) (u v : Node) :
  u ∈ numToNode (runDFS F Start Condition) →
  v ∈ successors F u →
  ∃ info, NodeToInfo (runDFS F Start Condition) !! v = Some info ∧
          (u ∈ Predecessors info ↔ u ≠ v) ∧
          count_occ Pos.eq_dec (Predecessors info) u =
          (if decide (u = v) then 0%nat
           else count_occ Pos.eq_dec (successors F u) v).
Proof. apply scanned_arc_predecessor_count. Qed.

Lemma runDFS_records_every_non_self_arc_witness :
  ∃ info, NodeToInfo (runDFS G_tri 1 always) !! 3%positive = Some info ∧
          (2%positive ∈ Predecessors info ↔ 2%positive ≠ 3%positive) ∧
          count_occ Pos.eq_dec (Predecessors info) 2%positive =
          (if decide (2 = 3)%positive then 0%nat
           else count_occ Pos.eq_dec (successors G_tri 2) 3%positive).
Proof.
  apply (runDFS_records_every_non_self_arc G_tri 1 always 2 3).
  - vm_compute. apply list_elem_of_further, list_elem_of_here.
  - vm_compute. apply list_elem_of_here.
Defined.

(** C2, as stated, fails: on each of the three kinds of bad input the
    call does not return. *)
Lemma driver_errors_not_recoverable :
  ¬ reported_recoverably file_unknown_action ∧
  ¬ reported_recoverably file_parse_error ∧
  ¬ reported_recoverably file_double_init.
Proof. repeat split; intros [r Hr]; vm_compute in Hr; discriminate. Qed.

(** C2, amended. A line with an unrecognized opcode, a malformed line and
    a second [p] header (after a header with a node count other than 0)
    are not recoverable: [readFromFile] ends the program on them, with
    [llvm_unreachable("Unknown action")], [llvm_unreachable("Parse error")]
    and the failed assertion ["Double init?"].  Whatever precedes the bad
    line, the call aborts when the loop reaches it. *)
Theorem readFromFile_errors_are_fatal
    (content : string) (pre : list string) (Line : string) (post : list string)
    (G : InputGraph) :
  getlines EmptyString content = pre ++ Line :: post →
  Forall (λ l, l ≠ EmptyString) pre →
  readLoop InputGraph_init pre = Returned G →
  (unknown_opcode Line →
   readFromFile (Some content) = Abort "Unknown action") ∧
  (malformed_line G Line →
   readFromFile (Some content) = Abort "Parse error") ∧
  (second_header G Line →
   readFromFile (Some content) = Abort "Double init?").
Proof.
  intros Hlines Hpre Hloop.
  assert (H : ∀ msg, readLine G Line = Abort msg →
                     readFromFile (Some content) = Abort msg).
  { intros msg HL. unfold readFromFile. rewrite Hlines.
    by rewrite (readLoop_abort pre InputGraph_init G Line post msg). }
  split; [|split]; intros HLine; apply H.
  - by apply readLine_unknown.
  - by apply readLine_malformed.
  - by apply readLine_second_header.
Qed.

Lemma readFromFile_errors_are_fatal_witness :
  readFromFile (Some file_unknown_action) = Abort "Unknown action".
Proof.
  apply (proj1 (readFromFile_errors_are_fatal file_unknown_action
                  ["p 3 1 1 0"] "x 1 2" []
                  {| nodesNum := 3; entry := 1; arcs := []; updates := [];
                     updateIdx := 0; cfg := None |}
                  eq_refl
                  ltac:(repeat constructor; discriminate)
                  eq_refl)).
  exists "x"%char, " 1 2". split; [reflexivity|].
  unfold known_opcodes. rewrite !not_elem_of_cons.
  repeat split; try discriminate. apply not_elem_of_nil.
Defined.

(** C3: the code at the failing input.  The harness file [file_one_arc]
    gives three blocks and the single arc [1 → 2]: the switch of block 1
    has the default destination [n_2] and no case.  Its update [d 1 3]
    asks for the deletion of an arc that does not exist:
    [disconnect(n_1, n_3)] erases the switch, and with it the arc
    [1 → 2]. *)
Theorem disconnect_absent_arc_erases_switch :
  readFromFile (Some file_one_arc) = Returned (Some input_one_arc) ∧
  ∃ EntryBB g' C n1 n2 n3,
    toCFG input_one_arc = Returned (EntryBB, g') ∧ cfg g' = Some C ∧
    numToBB C !! 1 = Some n1 ∧ numToBB C !! 2 = Some n2 ∧
    numToBB C !! 3 = Some n3 ∧ n2 ≠ n3 ∧
    successors (function C) n1 = [n2] ∧
    ∃ F', disconnect n1 n3 (function C) = Returned F' ∧
          successors F' n1 = [].
Proof.
  split; [by vm_compute|].
  eexists _, _, _, _, _, _.
  split; [by vm_compute|]. simpl.
  split; [done|]. split; [by vm_compute|]. split; [by vm_compute|].
  split; [by vm_compute|]. split; [done|]. split; [by vm_compute|].
  eexists. split; by vm_compute.
Qed.

(** C4, as stated, fails: in [G_tri] node 3 is first pushed by node 1, and
    pushed again by node 2 before it is visited; its parent is 2. *)
Lemma parent_not_first_scheduler : ¬ parent_is_first_scheduler G_tri 1%positive always.
Proof.
  intros [H _]. destruct (H 3%positive) as (info & Hi & Hp).
  - vm_compute. do 2 apply list_elem_of_further. apply list_elem_of_here.
  - done.
  - vm_compute in Hi. injection Hi as <-. vm_compute in Hp. discriminate.
Qed.

(** C4, amended. In the result of [runDFS], the parent of every visited
    node [n] other than [Start] is the node that pushed [n] onto the work
    list last (every push of a not yet visited [n] overwrites the parent,
    and nothing pushes [n] once it is visited), and the parent of [Start]
    is null. *)
Theorem runDFS_parent_is_last_scheduler
    (F : BlockStore) (Start : Node) (Condition : Node → Node → bool) :
  (∀ n, n ∈ numToNode (runDFS F Start Condition) → n ≠ Start →
     ∃ info u, NodeToInfo (runDFS F Start Condition) !! n = Some info ∧
               Parent info = Some u ∧
               last_sched n (Sched (runDFS_state F Start Condition)) = Some u) ∧
  (∃ info, NodeToInfo (runDFS F Start Condition) !! Start = Some info ∧
           Parent info = None).
Proof.
  pose proof (runDFS_Inv F Start Condition) as I. split.
  - intros n Hn Hne.
    destruct (result_visited_key F Start Condition n Hn) as [info Hi].
    destruct (result_parent_scheduled F Start Condition n Hn Hne)
      as (u & Hp & Hl & _).
    exists info, u. rewrite (result_info_at _ _ _ _ _ Hi) in Hp. done.
  - assert (Hk : is_Some (NodeToInfo (runDFS F Start Condition) !! Start))
      by (apply (inv_keys _ _ _ _ I); by left).
    destruct Hk as [info Hi]. exists info. split; [done|].
    rewrite <- (result_info_at _ _ _ _ _ Hi).
    unfold runDFS. rewrite (inv_parent _ _ _ _ I).
    apply result_start_unscheduled.
Qed.

Lemma runDFS_parent_is_last_scheduler_witness :
  ∃ info u, NodeToInfo (runDFS G_tri 1 always) !! 3%positive = Some info ∧
            Parent info = Some u ∧
            last_sched 3 (Sched (runDFS_state G_tri 1 always)) = Some u.
Proof.
  apply (proj1 (runDFS_parent_is_last_scheduler G_tri 1 always) 3%positive).
  - vm_compute. do 2 apply list_elem_of_further. apply list_elem_of_here.
  - discriminate.
Defined.

(** C5. [runDFS] visits each node at most once: [numToNode] has no
    duplicates and lists exactly the visited nodes, and the one DFS number
    of a visited node is its index in [numToNode] (as an [unsigned]).  An
    iteration that visits [BB] pushes exactly the successors
    [v] of [BB] that are not visited and for which [Condition BB v] holds;
    so every push [(u, v)] of the walk, and every tree edge (parent [u],
    child [v]), has [Condition u v = true], [v] a successor of [u], and
    [u] visited before [v]. *)
Theorem runDFS_visits_once_descends_guarded
    (F : BlockStore) (Start : Node) (Condition : Node → Node → bool) :
  NoDup (numToNode (runDFS F Start Condition)) ∧
  (∀ n, n ∈ Visited (runDFS_state F Start Condition) ↔
        n ∈ numToNode (runDFS F Start Condition)) ∧
  (∀ (i : nat) n,
     numToNode (runDFS F Start Condition) !! i = Some n →
     ∃ info, NodeToInfo (runDFS F Start Condition) !! n = Some info ∧
             Num info = wrap (N.of_nat i)) ∧
  (∀ st BB WL,
     WorkList st = BB :: WL → BB ∉ Visited st →
     WorkList (step F Condition st) =
       filter (λ v, (v ∉ {[BB]} ∪ Visited st) ∧ (Condition BB v = true))
              (successors F BB) ++ WL) ∧
  (∀ u v, (u, v) ∈ Sched (runDFS_state F Start Condition) →
     Condition u v = true ∧ v ∈ successors F u ∧
     before (numToNode (runDFS F Start Condition)) u v) ∧
  (∀ v, v ∈ numToNode (runDFS F Start Condition) → v ≠ Start →
     ∃ info u, NodeToInfo (runDFS F Start Condition) !! v = Some info ∧
               Parent info = Some u ∧
               Condition u v = true ∧ v ∈ successors F u ∧
               before (numToNode (runDFS F Start Condition)) u v).
Proof.
  pose proof (runDFS_Inv F Start Condition) as I.
  assert (Hs : ∀ u v, (u, v) ∈ Sched (runDFS_state F Start Condition) →
     Condition u v = true ∧ v ∈ successors F u ∧
     before (numToNode (runDFS F Start Condition)) u v).
  { intros u v Huv.
    destruct (inv_sched _ _ _ _ I u v Huv) as (Hc & Hsu & _ & _ & _ & Hb).
    repeat split; try done. apply Hb, (inv_visited _ _ _ _ I).
    by eapply result_scheduled_visited. }
  split; [apply (inv_nodup _ _ _ _ I)|].
  split; [apply (inv_visited _ _ _ _ I)|].
  split.
  { intros i n Hi.
    destruct (result_visited_key F Start Condition n) as [info Hinfo];
      [by eapply list_elem_of_lookup_2|].
    exists info. split; [done|].
    rewrite <- (result_info_at _ _ _ _ _ Hinfo).
    apply (inv_num _ _ _ _ I i n Hi). }
  split.
  { intros st BB WL HW HV.
    rewrite (step_unvisited F Condition st BB WL HW HV).
    apply visit_scan_WorkList. }
  split; [done|].
  intros v Hv Hne.
  destruct (result_visited_key F Start Condition v Hv) as [info Hi].
  destruct (result_parent_scheduled F Start Condition v Hv Hne)
    as (u & Hp & _ & Huv).
  exists info, u. rewrite (result_info_at _ _ _ _ _ Hi) in Hp.
  destruct (Hs u v Huv) as (? & ? & ?). done.
Qed.

Lemma runDFS_visits_once_descends_guarded_witness :
  ∃ info u, NodeToInfo (runDFS G_tri 1 always) !! 3%positive = Some info ∧
            Parent info = Some u ∧
            always u 3%positive = true ∧ 3%positive ∈ successors G_tri u ∧
            before (numToNode (runDFS G_tri 1 always)) u 3%positive.
Proof.
  apply (proj2 (proj2 (proj2 (proj2 (proj2
           (runDFS_visits_once_descends_guarded G_tri 1 always))))) 3%positive).
  - vm_compute. do 2 apply list_elem_of_further. apply list_elem_of_here.
  - discriminate.
Defined.

(** C6. For a graph as the problem header describes it (entry and arc
    ends among the nodes [1..N]), [toCFG] returns the entry block and makes
    one block for every node [1..N]: the block of the entry [E] is named
    [entry_n_E], the block of any other node [K] is named [n_K], distinct
    nodes have distinct blocks and the function has no other block.  The
    terminator of the block of [k] is the switch that [connect] builds from
    the arcs leaving [k]: its successors are, in the order the arcs are
    listed, the blocks of their targets (the first is the default
    destination, the others are the cases 0, 1, ...). *)
Theorem toCFG_materializes_nodes_and_arcs (g : InputGraph) :
  wf_input g →
  ∃ EntryBB g' C,
    toCFG g = Returned (EntryBB, g') ∧ cfg g' = Some C ∧
    numToBB C !! entry g = Some EntryBB ∧
    (∀ k, 1 ≤ k ≤ nodesNum g →
       ∃ h B, numToBB C !! k = Some h ∧ function C !! h = Some B ∧
              bbName B = (if decide (k = entry g) then "entry_n_" +:+ pretty k
                          else "n_" +:+ pretty k) ∧
              bbTerm B = switch_of (successors (function C) h) ∧
              Forall2 (λ a h', numToBB C !! a.2 = Some h')
                      (filter (λ a, a.1 = k) (arcs g))
                      (successors (function C) h)) ∧
    (∀ k k' h, numToBB C !! k = Some h → numToBB C !! k' = Some h → k = k') ∧
    (∀ h, is_Some (function C !! h) →
          ∃ k, 1 ≤ k ≤ nodesNum g ∧ numToBB C !! k = Some h).
Proof.
  intros Hwf. destruct (toCFG_spec g Hwf) as (EntryBB & F & M & Hto & He & Hdom & Hinj & HC).
  eexists EntryBB, _, {| function := F; numToBB := M |}.
  split; [exact Hto|]. simpl. split; [done|]. split; [done|].
  destruct HC as [Hstore Himg].
  split; [|split; [done|]].
  - intros k Hk. destruct (proj2 (Hdom k) Hk) as [h Hh].
    exists h, {| bbName := block_name (entry g) k;
                 bbTerm := switch_of (arc_targets M k (arcs g)) |}.
    pose proof (Hstore k h Hh) as HF.
    assert (Hs : successors F h = arc_targets M k (arcs g)).
    { unfold successors. rewrite HF. simpl. apply term_successors_switch_of. }
    split; [done|]. split; [done|]. simpl.
    split; [done|]. rewrite Hs. split; [done|].
    apply arc_targets_Forall2.
    destruct Hwf as (_ & _ & Harcs).
    eapply Forall_impl; [exact Harcs|]. intros a [_ Ha]. by apply Hdom.
  - intros h Hh. destruct (Himg h Hh) as [k Hk]. exists k.
    split; [|done]. apply Hdom. by eexists.
Qed.

Lemma toCFG_materializes_nodes_and_arcs_witness :
  ∃ EntryBB g' C,
    toCFG input_tri = Returned (EntryBB, g') ∧ cfg g' = Some C ∧
    numToBB C !! entry input_tri = Some EntryBB ∧
    (∀ k, 1 ≤ k ≤ nodesNum input_tri →
       ∃ h B, numToBB C !! k = Some h ∧ function C !! h = Some B ∧
              bbName B = (if decide (k = entry input_tri)
                          then "entry_n_" +:+ pretty k
                          else "n_" +:+ pretty k) ∧
              bbTerm B = switch_of (successors (function C) h) ∧
              Forall2 (λ a h', numToBB C !! a.2 = Some h')
                      (filter (λ a, a.1 = k) (arcs input_tri))
                      (successors (function C) h)) ∧
    (∀ k k' h, numToBB C !! k = Some h → numToBB C !! k' = Some h → k = k') ∧
    (∀ h, is_Some (function C !! h) →
          ∃ k, 1 ≤ k ≤ nodesNum input_tri ∧ numToBB C !! k = Some h).
Proof.
  apply (toCFG_materializes_nodes_and_arcs input_tri).
  unfold wf_input, input_tri, UINT_MOD. simpl.
  split; [lia|]. split; [lia|]. repeat constructor; simpl; lia.
Defined.

(** C7. [numToNode] is indexed by DFS number: for every valid index [i],
    the node at [i] has [Num = i], and every visited node [n] sits at index
    [Num n].  The order is a preorder of the DFS tree: it starts with
    [Start], every parent comes before its children, and between a parent
    and any of its children come descendants of the parent only.  [Num] is
    an [unsigned]: the statement is for walks that visit at most [2^32]
    nodes. *)
Theorem runDFS_numToNode_indexed_by_Num
    (F : BlockStore) (Start : Node) (Condition : Node → Node → bool) :
  N.of_nat (length (numToNode (runDFS F Start Condition))) ≤ UINT_MOD →
  (∀ (i : nat) n,
     numToNode (runDFS F Start Condition) !! i = Some n →
     ∃ info, NodeToInfo (runDFS F Start Condition) !! n = Some info ∧
             Num info = N.of_nat i) ∧
  (∀ n, n ∈ numToNode (runDFS F Start Condition) →
     ∃ info, NodeToInfo (runDFS F Start Condition) !! n = Some info ∧
             numToNode (runDFS F Start Condition) !! N.to_nat (Num info) = Some n) ∧
  head (numToNode (runDFS F Start Condition)) = Some Start ∧
  (∀ n info u,
     n ∈ numToNode (runDFS F Start Condition) →
     NodeToInfo (runDFS F Start Condition) !! n = Some info →
     Parent info = Some u →
     before (numToNode (runDFS F Start Condition)) u n) ∧
  (∀ u v w,
     tree_edge (runDFS F Start Condition) u v →
     before (numToNode (runDFS F Start Condition)) u w →
     before (numToNode (runDFS F Start Condition)) w v →
     descendant (runDFS F Start Condition) u w).
Proof.
  intros Hlen.
  pose proof (runDFS_Inv F Start Condition) as I.
  assert (Hnum : ∀ (i : nat) n,
     numToNode (runDFS F Start Condition) !! i = Some n →
     ∃ info, NodeToInfo (runDFS F Start Condition) !! n = Some info ∧
             Num info = N.of_nat i).
  { intros i n Hi.
    destruct (result_visited_key F Start Condition n) as [info Hinfo];
      [by eapply list_elem_of_lookup_2|].
    exists info. split; [done|].
    rewrite <- (result_info_at _ _ _ _ _ Hinfo).
    unfold runDFS. rewrite (inv_num _ _ _ _ I i n Hi).
    apply lookup_lt_Some in Hi. unfold wrap. apply N.mod_small.
    unfold runDFS in *. lia. }
  split; [done|]. split.
  { intros n Hn. apply list_elem_of_lookup in Hn as [i Hi].
    destruct (Hnum i n Hi) as (info & Hinfo & HN).
    exists info. split; [done|]. by rewrite HN, Nat2N.id. }
  split.
  { destruct (inv_start _ _ _ _ I) as [(_ & _ & Hw)|Hh]; [|done].
    by rewrite runDFS_terminates in Hw. }
  split; [|apply runDFS_contiguous].
  intros n info u Hn Hinfo Hp.
  rewrite <- (result_info_at _ _ _ _ _ Hinfo) in Hp.
  unfold runDFS in Hp. rewrite (inv_parent _ _ _ _ I) in Hp.
  apply last_sched_Some in Hp.
  destruct (inv_sched _ _ _ _ I u n Hp) as (_ & _ & _ & _ & _ & Hb).
  by apply Hb, (inv_visited _ _ _ _ I).
Qed.

Lemma runDFS_numToNode_indexed_by_Num_witness :
  ∃ info, NodeToInfo (runDFS G_tri 1 always) !! 3%positive = Some info ∧
          Num info = N.of_nat 2.
Proof.
  apply (proj1 (runDFS_numToNode_indexed_by_Num G_tri 1 always
                  ltac:(vm_compute; discriminate)) 2%nat 3%positive).
  vm_compute. reflexivity.
Defined.

(** C8. The verification mask bits are Basic = 1, CFG = 2, Sibling = 4 and
    Oracle = 8 (the enumerator [OldDT]); Normal is Basic|CFG|Oracle and
    Full is the bitwise or of all four bits. *)
Theorem Verification_mask_values :
  Verification.Basic = 1 ∧
  Verification.CFG = 2 ∧
  Verification.Sibling = 4 ∧
  Verification.OldDT = 8 ∧
  Verification.Normal =
    N.lor (N.lor Verification.Basic Verification.CFG) Verification.OldDT ∧
  Verification.Full =
    N.lor (N.lor (N.lor Verification.Basic Verification.CFG)
                 Verification.Sibling)
          Verification.OldDT ∧
  Verification.Normal = 11 ∧
  Verification.Full = 15 ∧
  N.land Verification.Normal Verification.Sibling = 0 ∧
  N.lor Verification.Normal Verification.Sibling = Verification.Full.
Proof. repeat split. Qed.

(** C9, as stated, fails: on a file with a malformed line the call does
    not return a graph. *)
Lemma readFromFile_not_total : ¬ always_returns_graph.
Proof.
  intros H. destruct (H (Some "p 1")) as [g Hg].
  vm_compute in Hg. discriminate.
Qed.

(** C9, amended. [readFromFile] never returns [None]: whenever the call
    returns (it does not on a line that ends the program), it returns a
    graph, despite the [Optional] return type.  A file that cannot be
    opened and an empty file give the graph with zero nodes, no arcs and
    no updates; a file of well-formed lines gives the graph it
    describes. *)
Theorem readFromFile_never_None :
  (∀ file, readFromFile file ≠ Returned None) ∧
  (∀ file r, readFromFile file = Returned r → ∃ g, r = Some g) ∧
  (∃ g, readFromFile None = Returned (Some g) ∧
        nodesNum g = 0 ∧ arcs g = [] ∧ updates g = []) ∧
  (∃ g, readFromFile (Some EmptyString) = Returned (Some g) ∧
        nodesNum g = 0 ∧ arcs g = [] ∧ updates g = []) ∧
  readFromFile (Some file_tri) = Returned (Some input_tri).
Proof.
  assert (H : ∀ file r, readFromFile file = Returned r → ∃ g, r = Some g).
  { intros file r. unfold readFromFile.
    destruct (readLoop _ _) as [G| |]; simpl; [|done|done].
    intros [= <-]. by exists G. }
  split; [|split; [done|]].
  - intros file Hf. by destruct (H file _ Hf).
  - split; [|split]; [by eexists| by eexists | by vm_compute].
Qed.

Lemma readFromFile_never_None_witness :
  ∃ g, Some InputGraph_init = Some g.
Proof.
  apply (proj1 (proj2 readFromFile_never_None) (Some EmptyString)
           (Some InputGraph_init)).
  reflexivity.
Defined.

(** C10. [runDFS] creates a [NodeToInfo] entry for every scanned
    successor, also for one that [Condition] rejects and that is never
    visited: the entry of such a node holds its predecessors, and its [Num]
    was never assigned (it is still the zero of the value-initialised
    entry).  So the keys of [NodeToInfo] can be a strict superset of the
    visited nodes: in [G_tri] with a [Condition] that always refuses, only
    node 1 is visited, and nodes 2 and 3 have entries with predecessor 1. *)
Theorem runDFS_keys_include_rejected_successors :
  (∀ (F : BlockStore) (Start : Node) (Condition : Node → Node → bool) u v,
     u ∈ numToNode (runDFS F Start Condition) → v ∈ successors F u →
     ∃ info, NodeToInfo (runDFS F Start Condition) !! v = Some info ∧
             (u ≠ v → u ∈ Predecessors info) ∧
             (v ∉ numToNode (runDFS F Start Condition) → Num info = 0)) ∧
  (∀ (F : BlockStore) (Start : Node) (Condition : Node → Node → bool) n,
     n ∈ numToNode (runDFS F Start Condition) →
     is_Some (NodeToInfo (runDFS F Start Condition) !! n)) ∧
  numToNode (runDFS G_tri 1 never) = [1%positive] ∧
  NodeToInfo (runDFS G_tri 1 never) !! 2%positive =
    Some {| Predecessors := [1%positive]; Num := 0; Parent := None |} ∧
  NodeToInfo (runDFS G_tri 1 never) !! 3%positive =
    Some {| Predecessors := [1%positive]; Num := 0; Parent := None |}.
Proof.
  split; [|split; [|by vm_compute]].
  - intros F Start Condition u v Hu Hv.
    pose proof (runDFS_Inv F Start Condition) as I.
    destruct (scanned_arc_predecessor_count F Start Condition u v Hu Hv)
      as (info & Hi & Hp & _).
    exists info. split; [done|]. split; [by intros ?; apply Hp|].
    intros Hnv. rewrite <- (result_info_at _ _ _ _ _ Hi).
    apply (inv_num_unvisited _ _ _ _ I). by rewrite (inv_visited _ _ _ _ I).
  - intros F Start Condition n. apply result_visited_key.
Qed.

Lemma runDFS_keys_include_rejected_successors_witness :
  ∃ info, NodeToInfo (runDFS G_tri 1 never) !! 2%positive = Some info ∧
          (1%positive ≠ 2%positive → 1%positive ∈ Predecessors info) ∧
          (2%positive ∉ numToNode (runDFS G_tri 1 never) → Num info = 0).
Proof.
  apply (proj1 runDFS_keys_include_rejected_successors G_tri 1%positive never
           1%positive 2%positive).
  - vm_compute. apply list_elem_of_here.
  - vm_compute. apply list_elem_of_here.
Defined.

(** * Further properties of [runDFS] *)

Section DFS_reach.

Variable F : BlockStore.
Variable Condition : Node → Node → bool.

Lemma ReachInv_initial Start : ReachInv F Condition Start (initial Start).
Proof.
  split; simpl.
  - intros n Hn. by apply not_elem_of_nil in Hn.
  - intros u v Hu. by apply not_elem_of_nil in Hu.
Qed.

Lemma ReachInv_step Start st :
  Inv F Condition Start st → ReachInv F Condition Start st →
  ReachInv F Condition Start (step F Condition st).
Proof.
  intros I HR.
  destruct (WorkList st) as [|BB WL] eqn:HW.
  { unfold step. by rewrite HW. }
  destruct HR as [Hvis Hclo].
  destruct (decide (BB ∈ Visited st)) as [HV|HV].
  - rewrite (step_visited F Condition st BB WL HW HV). split; simpl; [done|].
    intros u v Hu Ha. destruct (Hclo u v Hu Ha) as [Hv|Hv]; [by left|].
    rewrite HW in Hv. apply elem_of_cons in Hv as [->|Hv]; [|by right].
    left. by apply (inv_visited _ _ _ _ I).
  - rewrite (step_unvisited F Condition st BB WL HW HV). split.
    + intros n. rewrite visit_scan_numToNode, elem_of_app.
      intros [Hn|Hn]; [by apply Hvis|].
      apply list_elem_of_singleton in Hn as ->.
      assert (HBBw : BB ∈ WorkList st) by (rewrite HW; apply list_elem_of_here).
      destruct (inv_worklist _ _ _ _ I BB HBBw) as [[-> _]|[u Hu]];
        [apply rtc_refl|].
      destruct (inv_sched _ _ _ _ I u BB Hu) as (Hc & Hs & _ & Huv & _).
      eapply rtc_r; [|by split].
      by apply Hvis, (inv_visited _ _ _ _ I).
    + intros u v. rewrite visit_scan_numToNode, visit_scan_WorkList.
      rewrite !elem_of_app, list_elem_of_singleton.
      intros [Hu| ->] Ha.
      * destruct (Hclo u v Hu Ha) as [Hv|Hv]; [left; by left|].
        rewrite HW in Hv. apply elem_of_cons in Hv as [->|Hv];
          [left; right; apply list_elem_of_here|].
        right. by right.
      * destruct Ha as [Hs Hc].
        destruct (decide (v ∈ ({[BB]} ∪ Visited st : gset Node))) as [Hv|Hv].
        -- left. apply elem_of_union in Hv as [Hv|Hv].
           ++ right. apply elem_of_singleton in Hv as ->.
              apply list_elem_of_here.
           ++ left. by apply (inv_visited _ _ _ _ I).
        -- right. left. by apply elem_of_pushed.
Qed.

Lemma ReachInv_loop Start fuel st :
  Inv F Condition Start st → ReachInv F Condition Start st →
  ReachInv F Condition Start (loop F Condition fuel st).
Proof.
  revert st. induction fuel as [|fuel IH]; intros st I HR; simpl; [done|].
  destruct (WorkList st) eqn:HW; [done|].
  apply IH; [by apply Inv_step|by apply ReachInv_step].
Qed.

End DFS_reach.

Lemma runDFS_ReachInv F Start Condition :
  ReachInv F Condition Start (runDFS_state F Start Condition).
Proof. apply ReachInv_loop; [apply Inv_initial|apply ReachInv_initial]. Qed.

Lemma runDFS_Start_visited F Start Condition :
  Start ∈ numToNode (runDFS F Start Condition).
Proof.
  destruct (inv_start _ _ _ _ (runDFS_Inv F Start Condition))
    as [(_ & _ & Hw)|Hh].
  - by rewrite runDFS_terminates in Hw.
  - unfold runDFS. destruct (numToNode _); [done|].
    injection Hh as ->. apply list_elem_of_here.
Qed.

Lemma runDFS_visits_reachable_aux F Start Condition n :
  n ∈ numToNode (runDFS F Start Condition) →
  rtc (accepted F Condition) Start n.
Proof. apply (r_visited _ _ _ _ (runDFS_ReachInv F Start Condition)). Qed.

Lemma runDFS_visits_closed F Start Condition u v :
  u ∈ numToNode (runDFS F Start Condition) → accepted F Condition u v →
  v ∈ numToNode (runDFS F Start Condition).
Proof.
  intros Hu Ha.
  destruct (r_closed _ _ _ _ (runDFS_ReachInv F Start Condition) u v Hu Ha)
    as [Hz|Hz]; [done|].
  rewrite runDFS_terminates in Hz. by apply not_elem_of_nil in Hz.
Qed.

(** X1. The [while] loop of [runDFS] ends after at most one iteration per
    arc of the function plus one: run for any number of iterations from
    that bound on, it stops in the same state, with an empty work list. *)
Theorem runDFS_loop_bound
    (F : BlockStore) (Start : Node) (Condition : Node → Node → bool)
    (fuel : nat) :
  (S (arcsNum F) ≤ fuel)%nat →
  loop F Condition fuel (initial Start) = runDFS_state F Start Condition ∧
  WorkList (loop F Condition fuel (initial Start)) = [].
Proof.
  intros Hf. rewrite (runDFS_fuel_irrelevant F Start Condition fuel Hf).
  split; [done|apply runDFS_terminates].
Qed.

Lemma runDFS_loop_bound_witness :
  loop G_tri always 10 (initial 1) = runDFS_state G_tri 1 always ∧
  WorkList (loop G_tri always 10 (initial 1)) = [].
Proof.
  apply (runDFS_loop_bound G_tri 1 always 10).
  vm_compute. lia.
Defined.

(** X2. The keys of [NodeToInfo] in the result are exactly the start node
    and the successors of the visited nodes. *)
Theorem runDFS_keys_exact
    (F : BlockStore) (Start : Node) (Condition : Node → Node → bool) (v : Node) :
  is_Some (NodeToInfo (runDFS F Start Condition) !! v) ↔
  v = Start ∨
  ∃ u, u ∈ numToNode (runDFS F Start Condition) ∧ v ∈ successors F u.
Proof. apply (inv_keys _ _ _ _ (runDFS_Inv F Start Condition)). Qed.

(** X3. The predecessor list of a node [v] is ordered by the DFS numbers
    of the predecessors: it is the concatenation, over the visited nodes
    [u ≠ v] in visit order, of one copy of [u] per arc [u → v]. *)
Theorem runDFS_predecessors_in_visit_order
    (F : BlockStore) (Start : Node) (Condition : Node → Node → bool)
    (v : Node) (info : DFSNodeInfo) :
  NodeToInfo (runDFS F Start Condition) !! v = Some info →
  Predecessors info =
  flat_map (λ u, if decide (u = v) then []
                 else replicate (count_occ Pos.eq_dec (successors F u) v) u)
           (numToNode (runDFS F Start Condition)).
Proof.
  intros Hi. rewrite <- (result_info_at F Start Condition v info Hi).
  apply result_predecessors.
Qed.

Lemma runDFS_predecessors_in_visit_order_witness :
  [1; 2]%positive =
  flat_map (λ u, if decide (u = 3%positive) then []
                 else replicate (count_occ Pos.eq_dec (successors G_tri u) 3%positive) u)
           (numToNode (runDFS G_tri 1 always)).
Proof.
  apply (runDFS_predecessors_in_visit_order G_tri 1 always 3
           {| Predecessors := [1; 2]%positive; Num := 2; Parent := Some 2%positive |}).
  vm_compute. reflexivity.
Defined.

(** X4. [runDFS] records no predecessor that it did not scan: every
    entry [u] of the predecessor list of [v] is a visited node other than
    [v] with an arc [u → v]. *)
Theorem runDFS_predecessors_are_scanned_arcs
    (F : BlockStore) (Start : Node) (Condition : Node → Node → bool)
    (u v : Node) (info : DFSNodeInfo) :
  NodeToInfo (runDFS F Start Condition) !! v = Some info →
  u ∈ Predecessors info →
  u ∈ numToNode (runDFS F Start Condition) ∧ v ∈ successors F u ∧ u ≠ v.
Proof.
  intros Hi Hu.
  pose proof (runDFS_Inv F Start Condition) as I.
  apply list_elem_of_In, (count_occ_In Pos.eq_dec) in Hu.
  rewrite <- (result_info_at F Start Condition v info Hi) in Hu.
  rewrite result_predecessors, count_occ_preds_spec in Hu
    by apply (inv_nodup _ _ _ _ I).
  destruct (decide (u ≠ v ∧ u ∈ numToNode (runDFS F Start Condition)))
    as [[Hne Hin]|]; [|lia].
  split; [done|]. split; [|done].
  by apply list_elem_of_In, (count_occ_In Pos.eq_dec).
Qed.

Lemma runDFS_predecessors_are_scanned_arcs_witness :
  2%positive ∈ numToNode (runDFS G_tri 1 always) ∧
  3%positive ∈ successors G_tri 2 ∧ 2%positive ≠ 3%positive.
Proof.
  apply (runDFS_predecessors_are_scanned_arcs G_tri 1 always 2 3
           {| Predecessors := [1; 2]%positive; Num := 2; Parent := Some 2%positive |}).
  - vm_compute. reflexivity.
  - simpl. apply list_elem_of_further, list_elem_of_here.
Defined.

(** X5. [runDFS] visits exactly the nodes that can be reached from the
    start node along arcs that [Condition] accepts. *)
Theorem runDFS_visits_reachable
    (F : BlockStore) (Start : Node) (Condition : Node → Node → bool) (n : Node) :
  n ∈ numToNode (runDFS F Start Condition) ↔
  rtc (λ u v, v ∈ successors F u ∧ Condition u v = true) Start n.
Proof.
  destruct (runDFS_ReachInv F Start Condition) as [Hvis Hclo]. split.
  - apply Hvis.
  - revert n. apply rtc_ind_r.
    + apply runDFS_Start_visited.
    + intros y z _ Ha IH.
      destruct (Hclo y z IH Ha) as [Hz|Hz]; [done|].
      rewrite runDFS_terminates in Hz. by apply not_elem_of_nil in Hz.
Qed.

(** X6. In the result every node with a parent was visited: the parent
    [u] of [n] is a visited node with an arc [u → n] that [Condition]
    accepts, [u] comes before [n] in [numToNode], and [n] is not the start
    node.  No node is left scheduled but unvisited. *)
Theorem runDFS_parent_implies_visited
    (F : BlockStore) (Start : Node) (Condition : Node → Node → bool)
    (n u : Node) (info : DFSNodeInfo) :
  NodeToInfo (runDFS F Start Condition) !! n = Some info →
  Parent info = Some u →
  n ∈ numToNode (runDFS F Start Condition) ∧
  u ∈ numToNode (runDFS F Start Condition) ∧
  n ∈ successors F u ∧ Condition u n = true ∧ n ≠ Start ∧
  before (numToNode (runDFS F Start Condition)) u n.
Proof.
  intros Hi Hp.
  pose proof (runDFS_Inv F Start Condition) as I.
  rewrite <- (result_info_at F Start Condition n info Hi) in Hp.
  unfold runDFS in Hp. rewrite (inv_parent _ _ _ _ I) in Hp.
  apply last_sched_Some in Hp.
  pose proof (result_scheduled_visited F Start Condition u n Hp) as Hn.
  destruct (inv_sched _ _ _ _ I u n Hp) as (Hc & Hs & Hne & Hu & _ & Hb).
  split; [done|]. split; [by apply (inv_visited _ _ _ _ I)|].
  repeat split; try done. by apply Hb, (inv_visited _ _ _ _ I).
Qed.

Lemma runDFS_parent_implies_visited_witness :
  3%positive ∈ numToNode (runDFS G_tri 1 always) ∧
  2%positive ∈ numToNode (runDFS G_tri 1 always) ∧
  3%positive ∈ successors G_tri 2 ∧ always 2 3 = true ∧
  3%positive ≠ 1%positive ∧
  before (numToNode (runDFS G_tri 1 always)) 2 3.
Proof.
  apply (runDFS_parent_implies_visited G_tri 1 always 3 2
           {| Predecessors := [1; 2]%positive; Num := 2; Parent := Some 2%positive |}).
  - vm_compute. reflexivity.
  - reflexivity.
Defined.


(** X8. When [Condition] refuses every arc from the start node to another
    node, the walk visits the start node only. *)
Theorem runDFS_refused_at_start
    (F : BlockStore) (Start : Node) (Condition : Node → Node → bool) :
  (∀ v, v ∈ successors F Start → v ≠ Start → Condition Start v = false) →
  numToNode (runDFS F Start Condition) = [Start].
Proof.
  intros Href.
  assert (Hall : ∀ n, n ∈ numToNode (runDFS F Start Condition) → n = Start).
  { intros n Hn. apply runDFS_visits_reachable_aux in Hn.
    revert n Hn. apply rtc_ind_r; [done|].
    intros y z _ [Hs Hc] ->.
    destruct (decide (z = Start)) as [|Hne]; [done|].
    rewrite (Href z Hs Hne) in Hc. discriminate. }
  pose proof (inv_nodup _ _ _ _ (runDFS_Inv F Start Condition)) as Hnd.
  pose proof (runDFS_Start_visited F Start Condition) as Hs.
  fold (runDFS F Start Condition) in Hnd.
  destruct (numToNode (runDFS F Start Condition)) as [|a [|b l]].
  - by apply not_elem_of_nil in Hs.
  - by rewrite (Hall a) by apply list_elem_of_here.
  - exfalso. apply NoDup_cons in Hnd as [Ha _]. apply Ha.
    rewrite (Hall a) by apply list_elem_of_here.
    rewrite (Hall b) by apply list_elem_of_further, list_elem_of_here.
    apply list_elem_of_here.
Qed.

Lemma runDFS_refused_at_start_witness :
  numToNode (runDFS G_tri 1 never) = [1%positive].
Proof.
  apply (runDFS_refused_at_start G_tri 1 never).
  intros v _ _. reflexivity.
Defined.

(** * Further properties of [connect] and [disconnect] *)

Lemma set_term_id (B : BasicBlock) : set_term B (bbTerm B) = B.
Proof. by destruct B. Qed.

Lemma removeCase_last (cs : list (N * Node)) (x : N * Node) :
  removeCase (length cs) (cs ++ [x]) = cs.
Proof.
  unfold removeCase. rewrite last_snoc.
  rewrite insert_app_r_alt, Nat.sub_diag by lia. simpl.
  rewrite length_app. simpl. rewrite Nat.add_sub. apply take_app_length.
Qed.

Lemma removeCase_length (cs : list (N * Node)) (i : nat) :
  length (removeCase i cs) = (length cs - 1)%nat.
Proof.
  unfold removeCase. destruct (last cs) eqn:Hl.
  - rewrite length_take, length_insert. lia.
  - apply last_None in Hl. by subst.
Qed.


(** X9. [connect(From, To)] on a block of the function always returns; it
    appends [To] as the last successor of [From] (also when the arc is
    already there, or is a self-loop) and changes no other block and no
    name. *)
Theorem connect_appends_arc (F : BlockStore) (From To : Node) (B : BasicBlock) :
  F !! From = Some B →
  ∃ F', connect From To F = Returned F' ∧
        successors F' From = successors F From ++ [To] ∧
        (∀ BB, BB ≠ From → F' !! BB = F !! BB) ∧
        (∀ BB, bbName <$> F' !! BB = bbName <$> F !! BB).
Proof.
  intros HB. unfold connect. rewrite HB.
  destruct (bbTerm B) as [SI|] eqn:HT; eexists; (split; [done|]);
    (split; [|split]).
  - unfold successors. rewrite lookup_insert_eq, HB, HT. simpl.
    unfold switch_successors. simpl. by rewrite fmap_app.
  - intros BB Hne. by rewrite lookup_insert_ne.
  - intros BB. rewrite lookup_insert. case_decide; subst; [|done].
    by rewrite HB.
  - unfold successors. rewrite lookup_insert_eq, HB, HT. done.
  - intros BB Hne. by rewrite lookup_insert_ne.
  - intros BB. rewrite lookup_insert. case_decide; subst; [|done].
    by rewrite HB.
Qed.

Lemma connect_appends_arc_witness :
  ∃ F', connect 2 1 G_tri = Returned F' ∧
        successors F' 2 = successors G_tri 2 ++ [1%positive] ∧
        (∀ BB, BB ≠ 2%positive → F' !! BB = G_tri !! BB) ∧
        (∀ BB, bbName <$> F' !! BB = bbName <$> G_tri !! BB).
Proof.
  apply (connect_appends_arc G_tri 2 1
           {| bbName := "n_2"; bbTerm := switch_of [3%positive] |}).
  vm_compute. reflexivity.
Defined.

(** X10. Inserting an arc that the block does not have and deleting it
    again restores the function exactly: [disconnect(From, To)] after
    [connect(From, To)] gives back the function it started from. *)
Theorem connect_disconnect_restores (F : BlockStore) (From To : Node) :
  is_Some (F !! From) → is_Some (F !! To) →
  To ∉ successors F From →
  ∃ F1, connect From To F = Returned F1 ∧ disconnect From To F1 = Returned F.
Proof.
  intros [B HB] [BT HT] Hnot.
  assert (HT1 : ∀ B', is_Some (<[From := B']> F !! To)).
  { intros B'. rewrite lookup_insert. case_decide; by eexists. }
  unfold connect. rewrite HB. unfold successors in Hnot. rewrite HB in Hnot.
  destruct (bbTerm B) as [SI|] eqn:HSI; eexists; (split; [done|]);
    unfold disconnect; rewrite lookup_insert_eq;
    destruct (HT1 (set_term B (Some
      match bbTerm B with
      | Some SI => {| DefaultDest := DefaultDest SI;
                      Cases := Cases SI ++
                        [(wrap (N.of_nat (length (Cases SI))), To)] |}
      | None => {| DefaultDest := To; Cases := [] |}
      end))) as [BT' HT'];
    rewrite HSI in HT'; rewrite HT'; simpl.
  - simpl in Hnot. unfold switch_successors in Hnot.
    apply not_elem_of_cons in Hnot as [Hd Hcs].
    destruct (Cases SI ++ [(wrap (N.of_nat (length (Cases SI))), To)])
      as [|FirstC rest] eqn:Happ.
    { by destruct (Cases SI). }
    rewrite decide_False by done. rewrite <- Happ.
    assert (Hfind : list_find (λ c : N * Node, c.2 = To)
                      (Cases SI ++ [(wrap (N.of_nat (length (Cases SI))), To)])
                    = Some (length (Cases SI),
                            (wrap (N.of_nat (length (Cases SI))), To))).
    { apply list_find_Some. split; [|split; [done|]].
      - rewrite lookup_app_r by lia. by rewrite Nat.sub_diag.
      - intros j y Hj Hlt Hy. rewrite lookup_app_l in Hj by done.
        apply Hcs. apply list_elem_of_fmap. exists y. split; [done|].
        by eapply list_elem_of_lookup_2. }
    rewrite Hfind, removeCase_last. f_equal.
    rewrite insert_insert_eq. apply insert_id. rewrite HB. f_equal.
    destruct B as [nm tm]. simpl in *. subst tm. unfold set_term. simpl.
    by destruct SI.
  - f_equal. rewrite insert_insert_eq. apply insert_id. rewrite HB. f_equal.
    destruct B as [nm tm]. simpl in *. by subst tm.
Qed.

Lemma connect_disconnect_restores_witness :
  ∃ F1, connect 2 1 G_tri = Returned F1 ∧ disconnect 2 1 F1 = Returned G_tri.
Proof.
  apply (connect_disconnect_restores G_tri 2 1).
  - vm_compute. eexists. reflexivity.
  - vm_compute. eexists. reflexivity.
  - vm_compute. intros H. apply list_elem_of_singleton in H. discriminate.
Defined.

(** X11. Where the function has the arc, [disconnect(From, To)] removes
    one arc [From → To] and nothing else: the successors of [From] lose one
    occurrence of [To] (their order may change, since [removeCase] moves
    the last case into the gap), and no other block changes. *)
Theorem disconnect_removes_one_arc (F : BlockStore) (From To : Node) :
  To ∈ successors F From → is_Some (F !! To) →
  ∃ F', disconnect From To F = Returned F' ∧
        To :: successors F' From ≡ₚ successors F From ∧
        ∀ BB, BB ≠ From → F' !! BB = F !! BB.
Proof. apply disconnect_existing_arc. Qed.

Lemma disconnect_removes_one_arc_witness :
  ∃ F', disconnect 1 2 G_tri = Returned F' ∧
        2%positive :: successors F' 1 ≡ₚ successors G_tri 1 ∧
        ∀ BB, BB ≠ 1%positive → F' !! BB = G_tri !! BB.
Proof.
  apply (disconnect_removes_one_arc G_tri 1 2).
  - vm_compute. apply list_elem_of_here.
  - vm_compute. eexists. reflexivity.
Defined.





(** * Further properties of [InputGraph::toCFG] *)

Lemma usub_one_lt_inv (k n : N) :
  k < UINT_MOD → n < UINT_MOD → usub k 1 < n → 1 ≤ k ≤ n.
Proof.
  intros Hk Hn Hlt. destruct (decide (k = 0)) as [->|Hk0].
  - exfalso. revert Hlt Hn. unfold usub, UINT_MOD.
    rewrite (N.mod_small 1) by lia.
    replace (0 + 2 ^ 32 - 1) with (2 ^ 32 - 1) by lia.
    rewrite N.mod_small by lia. lia.
  - rewrite usub_pred in Hlt by lia. lia.
Qed.

Lemma Blocks_at_Returned (Blocks : list (option Node)) (i : N) (h : Node) :
  Blocks_at Blocks i = Returned h → (N.to_nat i < length Blocks)%nat.
Proof.
  unfold Blocks_at. destruct (Blocks !! N.to_nat i) as [o|] eqn:Hi; [|done].
  intros _. by eapply lookup_lt_Some.
Qed.

Lemma Blocks_at_not_Abort (Blocks : list (option Node)) (i : N) (msg : string) :
  Blocks_at Blocks i ≠ Abort msg.
Proof. unfold Blocks_at. by destruct (Blocks !! N.to_nat i) as [[?|]|]. Qed.

Lemma connect_not_Abort (From To : Node) (F : BlockStore) (msg : string) :
  connect From To F ≠ Abort msg.
Proof.
  unfold connect. destruct (F !! From) as [B|]; [|done].
  by destruct (bbTerm B).
Qed.

Lemma connectArcs_Returned_inv (Blocks : list (option Node))
    (arcs : list (N * N)) (F F' : BlockStore) :
  connectArcs Blocks arcs F = Returned F' →
  Forall (λ a, (N.to_nat (usub a.1 1) < length Blocks)%nat ∧
               (N.to_nat (usub a.2 1) < length Blocks)%nat) arcs.
Proof.
  revert F. induction arcs as [|A arcs IH]; intros F H; [constructor|].
  cbn [connectArcs] in H.
  destruct (Blocks_at Blocks (usub A.1 1)) as [From| |] eqn:H1; [|done..].
  destruct (Blocks_at Blocks (usub A.2 1)) as [To| |] eqn:H2; [|done..].
  simpl in H.
  destruct (connect From To F) as [F1| |] eqn:H3; [|done..]. simpl in H.
  constructor; [|by eapply IH].
  split; by eapply Blocks_at_Returned.
Qed.

Lemma connectArcs_not_Abort (Blocks : list (option Node))
    (arcs : list (N * N)) (F : BlockStore) (msg : string) :
  connectArcs Blocks arcs F ≠ Abort msg.
Proof.
  revert F. induction arcs as [|A arcs IH]; intros F; [done|].
  cbn [connectArcs].
  destruct (Blocks_at Blocks (usub A.1 1)) as [From| |] eqn:H1; [|
    by apply Blocks_at_not_Abort in H1|done].
  destruct (Blocks_at Blocks (usub A.2 1)) as [To| |] eqn:H2; [|
    by apply Blocks_at_not_Abort in H2|done].
  simpl.
  destruct (connect From To F) as [F1| |] eqn:H3; [|
    by apply connect_not_Abort in H3|done].
  simpl. apply IH.
Qed.

Lemma toCFG_blocks_length (g : InputGraph) :
  1 ≤ entry g ≤ nodesNum g → nodesNum g < UINT_MOD - 1 →
  length (foldl (makeNode (entry g))
            ((BasicBlock_Create (MakeName "entry_n_" (entry g)) ∅).2,
             <[N.to_nat (usub (entry g) 1) :=
                 Some (BasicBlock_Create (MakeName "entry_n_" (entry g)) ∅).1]>
               (replicate (N.to_nat (nodesNum g)) None),
             {[entry g := (BasicBlock_Create (MakeName "entry_n_" (entry g)) ∅).1]})
            (N.of_nat <$> seq 1 (N.to_nat (nodesNum g)))).1.2
  = N.to_nat (nodesNum g).
Proof.
  intros He Hn. unfold BasicBlock_Create. cbn [fst snd].
  set (s1 := (_, _, _) : BuildState).
  assert (HB1 : Built (nodesNum g) (entry g) ({[entry g]} ∪ ∅) s1).
  { pose proof (Built_add (nodesNum g) (entry g) ∅ _ (entry g)
                  (Built_empty (nodesNum g) (entry g))) as HA.
    unfold addBlock, BasicBlock_Create, block_name in HA.
    rewrite decide_True in HA by done. rewrite insert_empty in HA.
    apply HA; [set_solver|lia|lia]. }
  pose proof (Built_makeNodes (nodesNum g) (entry g)
                (N.of_nat <$> seq 1 (N.to_nat (nodesNum g))) _ s1
                ltac:(lia) HB1) as HB2.
  eapply b_len. apply HB2.
  - apply NoDup_fmap_2; [|apply NoDup_seq]. intros a b. lia.
  - intros i Hi. apply list_elem_of_fmap in Hi as (j & -> & Hj).
    apply elem_of_seq in Hj. lia.
  - set_solver.
  - intros i _ Hi. set_solver.
Qed.

Lemma toCFG_outcome (g : InputGraph) :
  entry g < UINT_MOD → nodesNum g < UINT_MOD →
  Forall (λ a, a.1 < UINT_MOD ∧ a.2 < UINT_MOD) (arcs g) →
  ((∃ r, toCFG g = Returned r) ↔ wf_input g) ∧
  (¬ wf_input g → toCFG g = Undefined) ∧
  (∀ EntryBB g', toCFG g = Returned (EntryBB, g') →
     nodesNum g' = nodesNum g ∧ entry g' = entry g ∧ arcs g' = arcs g ∧
     updates g' = updates g ∧ updateIdx g' = updateIdx g ∧
     is_Some (cfg g')).
Proof.
  intros He Hn Ha.
  assert (Hret : ∀ r, toCFG g = Returned r → wf_input g).
  { intros r. unfold toCFG.
    destruct (decide (usub (entry g) 1 < nodesNum g)) as [H1|]; [|done].
    destruct (decide (nodesNum g < UINT_MOD - 1)) as [H2|]; [|done].
    pose proof (usub_one_lt_inv _ _ He Hn H1) as Hent.
    pose proof (toCFG_blocks_length g Hent H2) as Hlen.
    destruct (BasicBlock_Create _ _) as [EntryBB F1].
    cbn [fst snd] in Hlen.
    destruct (foldl _ _ _) as [[F2 Blocks2] M2]. cbn [fst snd] in Hlen.
    destruct (connectArcs Blocks2 (arcs g) F2) as [F3| |] eqn:HC; [|done..].
    intros _. split; [done|]. split; [done|].
    apply connectArcs_Returned_inv in HC. rewrite Hlen in HC.
    rewrite Forall_forall in Ha, HC. apply Forall_forall. intros a Hin.
    destruct (Ha a Hin) as [Ha1 Ha2]. destruct (HC a Hin) as [Hc1 Hc2].
    split; apply usub_one_lt_inv; try done; lia. }
  assert (Hnab : ∀ msg, toCFG g ≠ Abort msg).
  { intros msg. unfold toCFG.
    destruct (decide (usub (entry g) 1 < nodesNum g)); [|done].
    destruct (decide (nodesNum g < UINT_MOD - 1)); [|done].
    destruct (BasicBlock_Create _ _) as [EntryBB F1].
    destruct (foldl _ _ _) as [[F2 Blocks2] M2].
    destruct (connectArcs Blocks2 (arcs g) F2) as [F3| |] eqn:HC; [done| |done].
    by apply connectArcs_not_Abort in HC. }
  split; [|split].
  - split; [by intros [r Hr]; eapply Hret|].
    intros Hwf. destruct (toCFG_spec g Hwf) as (E & F & M & Hto & _).
    eexists. exact Hto.
  - intros Hnwf. destruct (toCFG g) as [r|msg|] eqn:Hto; [| |done].
    + destruct Hnwf. by eapply Hret.
    + by destruct (Hnab msg).
  - intros EntryBB g' Hto.
    destruct (toCFG_spec g (Hret _ Hto)) as (E & F & M & Hto' & _).
    rewrite Hto in Hto'. injection Hto' as -> ->. simpl.
    repeat (split; [done|]). by eexists.
Qed.

(** X14. For a graph whose numbers are [unsigned] values, [toCFG] returns
    exactly when the graph is as the header describes it: the entry is one
    of the nodes [1..N], every arc joins two of them and [N < UINT_MAX].
    On every other graph it indexes [Blocks] out of bounds; it never stops
    on an assertion.  When it returns it has set [cfg] and changed no
    other field of the graph. *)
Theorem toCFG_returns_iff_well_formed (g : InputGraph) :
  entry g < UINT_MOD → nodesNum g < UINT_MOD →
  Forall (λ a, a.1 < UINT_MOD ∧ a.2 < UINT_MOD) (arcs g) →
  ((∃ r, toCFG g = Returned r) ↔ wf_input g) ∧
  (¬ wf_input g → toCFG g = Undefined) ∧
  (∀ EntryBB g', toCFG g = Returned (EntryBB, g') →
     nodesNum g' = nodesNum g ∧ entry g' = entry g ∧ arcs g' = arcs g ∧
     updates g' = updates g ∧ updateIdx g' = updateIdx g ∧
     is_Some (cfg g')).
Proof. apply toCFG_outcome. Qed.

Lemma toCFG_returns_iff_well_formed_witness :
  ((∃ r, toCFG input_tri = Returned r) ↔ wf_input input_tri) ∧
  (¬ wf_input input_tri → toCFG input_tri = Undefined) ∧
  (∀ EntryBB g', toCFG input_tri = Returned (EntryBB, g') →
     nodesNum g' = nodesNum input_tri ∧ entry g' = entry input_tri ∧
     arcs g' = arcs input_tri ∧
     updates g' = updates input_tri ∧ updateIdx g' = updateIdx input_tri ∧
     is_Some (cfg g')).
Proof.
  apply (toCFG_returns_iff_well_formed input_tri).
  - vm_compute. reflexivity.
  - vm_compute. reflexivity.
  - repeat constructor.
Defined.

Lemma toCFG_arc_successor (g : InputGraph) (F : BlockStore) (M : gmap N Node)
    (a b : N) (ha hb : Node) :
  (∀ k k' h, M !! k = Some h → M !! k' = Some h → k = k') →
  Connected (entry g) M (arcs g) F →
  M !! a = Some ha → M !! b = Some hb →
  hb ∈ successors F ha ↔ (a, b) ∈ arcs g.
Proof.
  intros Hinj [Hstore _] Ha Hb. unfold successors.
  rewrite (Hstore a ha Ha). cbn [bbTerm].
  rewrite term_successors_switch_of. unfold arc_targets.
  rewrite list_elem_of_omap. split.
  - intros ([x y] & Hin & Hxy). cbn [fst snd] in Hxy.
    destruct (decide (x = a)) as [->|]; [|done].
    by rewrite (Hinj y b hb Hxy Hb) in Hin.
  - intros Hin. exists (a, b). split; [done|]. cbn [fst snd].
    by rewrite decide_True.
Qed.

(** X15. [toCFG] followed by [runDFS]: on a graph as the header describes
    it, a depth-first walk of the built function from the entry block that
    descends along every arc visits the block of node [k] exactly when [k]
    is reachable from the entry node along the arcs of the graph. *)
Theorem toCFG_runDFS_visits_reachable (g g' : InputGraph) (EntryBB : Node)
    (C : GraphCFG) :
  wf_input g → toCFG g = Returned (EntryBB, g') → cfg g' = Some C →
  ∀ k h, numToBB C !! k = Some h →
    (h ∈ numToNode (runDFS (function C) EntryBB always) ↔
     rtc (λ a b, (a, b) ∈ arcs g) (entry g) k).
Proof.
  intros Hwf Hto HC k h Hk.
  destruct (toCFG_spec g Hwf) as (E & F & M & Hto' & He & Hdom & Hinj & HCon).
  rewrite Hto in Hto'. injection Hto' as -> ->. simpl in HC.
  injection HC as <-. simpl in *.
  assert (Hsucc : ∀ ha v, is_Some (M !! ha.1) → M !! ha.1 = Some ha.2 →
            v ∈ successors F ha.2 →
            ∃ b, M !! b = Some v ∧ (ha.1, b) ∈ arcs g).
  { intros [a ha] v _ Ha Hv. cbn [fst snd] in *.
    unfold successors in Hv. destruct HCon as [Hstore _].
    rewrite (Hstore a ha Ha) in Hv. cbn [bbTerm] in Hv.
    rewrite term_successors_switch_of in Hv. unfold arc_targets in Hv.
    apply list_elem_of_omap in Hv as ([x y] & Hin & Hxy).
    cbn [fst snd] in Hxy.
    destruct (decide (x = a)) as [->|]; [|done]. by exists y. }
  split.
  - intros Hr. apply runDFS_visits_reachable_aux in Hr.
    cut (∃ k', M !! k' = Some h ∧
               rtc (λ a b, (a, b) ∈ arcs g) (entry g) k').
    { intros (k' & Hk' & Hr'). by rewrite (Hinj k k' h Hk Hk'). }
    clear Hk. revert h Hr. apply rtc_ind_r.
    + exists (entry g). split; [done|]. apply rtc_refl.
    + intros y z _ [Hz _] (ky & Hky & Hry).
      destruct (Hsucc (ky, y) z) as (b & Hb & Hin); cbn [fst snd];
        [by eexists|done|done|].
      exists b. split; [done|]. eapply rtc_r; [exact Hry|done].
  - intros Hr. revert k Hr h Hk. apply (rtc_ind_r (λ k, ∀ h, M !! k = Some h →
      h ∈ numToNode (runDFS F E always))).
    + intros h Hh. rewrite He in Hh. injection Hh as <-.
      apply runDFS_Start_visited.
    + intros a b Hra Hab IH hb Hb.
      assert (Ha : is_Some (M !! a)).
      { apply Hdom. destruct Hwf as (_ & _ & Harcs).
        rewrite Forall_forall in Harcs. by destruct (Harcs _ Hab). }
      destruct Ha as [ha Ha].
      eapply runDFS_visits_closed; [by apply (IH ha)|]. split; [|done].
      by apply (toCFG_arc_successor g F M a b ha hb).
Qed.

Lemma toCFG_runDFS_visits_reachable_witness :
  ∃ EntryBB g' C,
    toCFG input_tri = Returned (EntryBB, g') ∧ cfg g' = Some C ∧
    ∀ k h, numToBB C !! k = Some h →
      (h ∈ numToNode (runDFS (function C) EntryBB always) ↔
       rtc (λ a b, (a, b) ∈ arcs input_tri) (entry input_tri) k).
Proof.
  destruct (toCFG input_tri) as [[EntryBB g']| |] eqn:Hto;
    [|vm_compute in Hto; discriminate..].
  destruct (cfg g') as [C|] eqn:HC;
    [|vm_compute in Hto; injection Hto as <- <-; discriminate].
  exists EntryBB, g', C. split; [done|]. split; [done|].
  apply (toCFG_runDFS_visits_reachable input_tri g' EntryBB C);
    [|done|done].
  split; [vm_compute; split; discriminate|].
  split; [vm_compute; reflexivity|].
  repeat constructor; vm_compute; discriminate.
Defined.

(** * Further properties of [InputGraph::readFromFile] *)

Lemma getlines_app (cur c1 rest : string) :
  getlines cur (c1 +:+ nl +:+ rest)
  = getlines cur (c1 +:+ nl) ++ getlines EmptyString rest.
Proof.
  revert cur. induction c1 as [|a c1 IH]; intros cur.
  - reflexivity.
  - simpl. destruct (decide (a = ascii_of_nat 10)); [|apply IH].
    simpl. f_equal. apply IH.
Qed.

Lemma append_snoc (cur : string) (a : ascii) (l : string) :
  (cur +:+ String a EmptyString) +:+ l = cur +:+ String a l.
Proof.
  induction cur as [|c cur IH]; [done|]. exact (f_equal (String c) IH).
Qed.

Lemma getlines_single (cur Line rest : string) :
  ascii_of_nat 10 ∉ list_ascii_of_string Line →
  getlines cur (Line +:+ nl +:+ rest)
  = (cur +:+ Line) :: getlines EmptyString rest.
Proof.
  revert cur. induction Line as [|a Line IH]; intros cur Hnl.
  - simpl. f_equal.
    induction cur as [|c cur IHc]; [done|]. exact (f_equal (String c) IHc).
  - simpl in Hnl. apply not_elem_of_cons in Hnl as [Ha Hnl].
    simpl. rewrite decide_False by done.
    rewrite IH by done. by rewrite append_snoc.
Qed.

Lemma readLoop_blank (G : InputGraph) (pre post : list string) :
  readLoop G (pre ++ EmptyString :: post) = readLoop G pre.
Proof.
  revert G. induction pre as [|l pre IH]; intros G; simpl.
  - done.
  - destruct (decide (l = EmptyString)); [done|].
    destruct (readLine G l) as [G1| |]; simpl; [apply IH|done..].
Qed.

Lemma readLoop_end_marker (G : InputGraph) (pre post : list string)
    (Line rest : string) :
  skipws Line = String "e" rest →
  readLoop G (pre ++ Line :: post) = readLoop G (pre ++ post).
Proof.
  intros HL.
  assert (Hne : Line ≠ EmptyString) by (by intros ->).
  assert (Hrl : ∀ G', readLine G' Line = Returned G').
  { intros G'. unfold readLine. rewrite HL.
    rewrite decide_False by done. rewrite decide_False by done.
    by rewrite decide_True. }
  revert G. induction pre as [|l pre IH]; intros G; simpl.
  - rewrite decide_False by done. by rewrite Hrl.
  - destruct (decide (l = EmptyString)); [done|].
    destruct (readLine G l) as [G1| |]; simpl; [apply IH|done..].
Qed.

Lemma extract_unsigned_bound (s rest : string) (v : N) :
  extract_unsigned s = Some (v, rest) → v < UINT_MOD.
Proof.
  unfold extract_unsigned.
  destruct (match skipws s with
            | String "-" r => (true, r)
            | String "+" r => (false, r)
            | _ => (false, skipws s)
            end) as [neg s2].
  destruct (read_digits s2 0 0) as [[v' count] rest'].
  destruct (decide (count = 0%nat)); [done|].
  destruct (decide (UINT_MOD ≤ v')); [done|].
  intros [= <- _]. destruct neg; [|lia].
  unfold usub. apply N.mod_lt. done.
Qed.

Lemma extract2_bound (s : string) (x y : N) :
  extract2 s = Some (x, y) → x < UINT_MOD ∧ y < UINT_MOD.
Proof.
  unfold extract2.
  destruct (extract_unsigned s) as [[x' s1]|] eqn:H1; [|done]. simpl.
  destruct (extract_unsigned s1) as [[y' s2]|] eqn:H2; [|done]. simpl.
  intros [= <- <-]. split; by eapply extract_unsigned_bound.
Qed.

Lemma extract4_bound (s : string) (a b c d : N) :
  extract4 s = Some (a, b, c, d) → a < UINT_MOD ∧ c < UINT_MOD.
Proof.
  unfold extract4.
  destruct (extract_unsigned s) as [[a' s1]|] eqn:H1; [|done]. simpl.
  destruct (extract_unsigned s1) as [[b' s2]|] eqn:H2; [|done]. simpl.
  destruct (extract_unsigned s2) as [[c' s3]|] eqn:H3; [|done]. simpl.
  destruct (extract_unsigned s3) as [[d' s4]|] eqn:H4; [|done]. simpl.
  intros [= <- _ <- _]. split; by eapply extract_unsigned_bound.
Qed.

Lemma readUpdate_as_read (o : Op) (rest : string) (G G' : InputGraph) :
  as_read G → readUpdate o rest G = Returned G' → as_read G'.
Proof.
  intros (Hi & Hc & Hn & He & Ha & Hu). unfold readUpdate.
  destruct (extract2 rest) as [[x y]|]; [|done].
  destruct (decide (x ≤ nodesNum G)); [|done].
  destruct (decide (y ≤ nodesNum G)); [|done].
  intros [= <-]. unfold as_read, push_update. simpl.
  repeat (split; [done|]). apply Forall_app. split; [done|].
  by apply Forall_singleton.
Qed.

Lemma readLine_as_read (G G' : InputGraph) (Line : string) :
  as_read G → readLine G Line = Returned G' → as_read G'.
Proof.
  intros HG. pose proof HG as (Hi & Hc & Hn & He & Ha & Hu).
  unfold readLine.
  destruct (skipws Line) as [|Action rest]; [done|].
  destruct (decide (Action = "p"%char)).
  { destruct (decide (nodesNum G = 0)) as [H0|]; [|done].
    destruct (extract4 rest) as [[[[n m] e'] d]|] eqn:H4; [|done].
    apply extract4_bound in H4 as [? ?].
    intros [= <-]. unfold as_read. simpl.
    repeat (split; [done|]).
    eapply Forall_impl; [exact Hu|]. intros u [Hu1 Hu2]. simpl in *. lia. }
  destruct (decide (Action = "a"%char)).
  { destruct (extract2 rest) as [[x y]|] eqn:H2; [|done].
    apply extract2_bound in H2.
    intros [= <-]. unfold as_read. simpl.
    repeat (split; [done|]). split; [|done].
    apply Forall_app. split; [done|]. by apply Forall_singleton. }
  destruct (decide (Action = "e"%char)); [by intros [= <-]|].
  destruct (decide (Action = "i"%char)); [by apply readUpdate_as_read|].
  destruct (decide (Action = "d"%char)); [by apply readUpdate_as_read|].
  done.
Qed.

Lemma readLoop_as_read (lines : list string) (G G' : InputGraph) :
  as_read G → readLoop G lines = Returned G' → as_read G'.
Proof.
  revert G. induction lines as [|l lines IH]; intros G HG; simpl.
  - by intros [= <-].
  - destruct (decide (l = EmptyString)); [by intros [= <-]|].
    destruct (readLine G l) as [G1| |] eqn:Hl; simpl; [|done..].
    apply IH. by eapply readLine_as_read.
Qed.

Lemma readFromFile_as_read (file : option string) (g : InputGraph) :
  readFromFile file = Returned (Some g) → as_read g.
Proof.
  unfold readFromFile.
  destruct (readLoop InputGraph_init _) as [G| |] eqn:HL; simpl; [|done..].
  intros [= <-]. eapply readLoop_as_read; [|exact HL].
  unfold as_read, InputGraph_init. simpl.
  repeat (split; [done|]). done.
Qed.

(** X16. [readFromFile] stops at the first line without characters: what
    follows a blank line does not change the outcome, and a file that
    starts with a blank line gives the empty graph. *)
Theorem readFromFile_stops_at_blank_line (c1 c2 : string) :
  readFromFile (Some (c1 +:+ nl +:+ nl +:+ c2)) = readFromFile (Some (c1 +:+ nl)) ∧
  readFromFile (Some (nl +:+ c2)) = Returned (Some InputGraph_init).
Proof.
  split.
  - unfold readFromFile. rewrite getlines_app.
    change (getlines EmptyString (nl +:+ c2))
      with (EmptyString :: getlines EmptyString c2).
    by rewrite readLoop_blank.
  - done.
Qed.

(** X18. [readFromFile] followed by [toCFG]: on a graph read from a file,
    [toCFG] returns exactly when the entry is one of the nodes [1..N],
    every arc joins two of them and [N < UINT_MAX]; for any other graph
    that [readFromFile] lets through (it does not check the arcs or the
    entry) [toCFG] indexes [Blocks] out of bounds. *)
Theorem readFromFile_toCFG (file : option string) (g : InputGraph) :
  readFromFile file = Returned (Some g) →
  ((∃ r, toCFG g = Returned r) ↔ wf_input g) ∧
  (¬ wf_input g → toCFG g = Undefined).
Proof.
  intros Hr. apply readFromFile_as_read in Hr as (_ & _ & Hn & He & Ha & _).
  destruct (toCFG_outcome g He Hn Ha) as (H1 & H2 & _). done.
Qed.

Lemma readFromFile_toCFG_witness :
  ((∃ r, toCFG input_tri = Returned r) ↔ wf_input input_tri) ∧
  (¬ wf_input input_tri → toCFG input_tri = Undefined).
Proof.
  apply (readFromFile_toCFG (Some file_tri) input_tri).
  vm_compute. reflexivity.
Defined.

(** X19. A line whose first character after white space is [e] changes
    nothing: the file read with the line and the file read without it
    give the same outcome, wherever the line stands. *)
Theorem readFromFile_end_marker_ignored (c1 c2 Line : string) :
  ascii_of_nat 10 ∉ list_ascii_of_string Line →
  (∃ rest, skipws Line = String "e" rest) →
  readFromFile (Some (c1 +:+ nl +:+ Line +:+ nl +:+ c2))
  = readFromFile (Some (c1 +:+ nl +:+ c2)) ∧
  readFromFile (Some (Line +:+ nl +:+ c2)) = readFromFile (Some c2).
Proof.
  intros Hnl [rest HL]. unfold readFromFile. split.
  - rewrite getlines_app, (getlines_app _ c1 c2), getlines_single by done.
    change (EmptyString +:+ Line) with Line.
    by rewrite (readLoop_end_marker _ _ _ Line rest HL).
  - rewrite getlines_single by done.
    change (EmptyString +:+ Line) with Line.
    by rewrite (readLoop_end_marker InputGraph_init []
                  (getlines EmptyString c2) Line rest HL
                : readLoop _ (Line :: _) = readLoop _ _).
Qed.

Lemma readFromFile_end_marker_ignored_witness :
  readFromFile (Some ("p 2 1 1 0" +:+ nl +:+ " end" +:+ nl +:+ "a 1 2"))
  = readFromFile (Some ("p 2 1 1 0" +:+ nl +:+ "a 1 2")) ∧
  readFromFile (Some (" end" +:+ nl +:+ "a 1 2")) = readFromFile (Some "a 1 2").
Proof.
  apply (readFromFile_end_marker_ignored "p 2 1 1 0" "a 1 2" " end").
  - vm_compute. intros H.
    repeat (apply elem_of_cons in H as [H|H]; [discriminate|]).
    by apply not_elem_of_nil in H.
  - exists "nd". reflexivity.
Defined.

(** ** Lines in decimal notation *)

Lemma pretty_N_char_digit (x : N) :
  x < 10 →
  isdigit (pretty_N_char x) = true ∧ N_of_ascii (pretty_N_char x) - 48 = x.
Proof.
  intros Hx.
  assert (x = 0 ∨ x = 1 ∨ x = 2 ∨ x = 3 ∨ x = 4 ∨ x = 5 ∨ x = 6 ∨ x = 7 ∨
          x = 8 ∨ x = 9) as Hc by lia.
  repeat (destruct Hc as [->|Hc]; [by vm_compute|]). subst. by vm_compute.
Qed.

Lemma isdigit_not_space (c : ascii) :
  isdigit c = true →
  isspace c = false ∧ c ≠ "-"%char ∧ c ≠ "+"%char ∧ c ≠ ascii_of_nat 10.
Proof.
  unfold isdigit, isspace. intros H.
  apply andb_true_iff in H as [H1 H2].
  apply N.leb_le in H1, H2. split; [|split; [|split]].
  - apply orb_false_iff. split.
    + apply N.eqb_neq. lia.
    + apply andb_false_iff. right. apply N.leb_gt. lia.
  - intros ->. vm_compute in H2. done.
  - intros ->. vm_compute in H2. done.
  - intros ->. vm_compute in H2. done.
Qed.

Lemma pretty_N_go_app (x : N) (s r : string) :
  pretty_N_go x s +:+ r = pretty_N_go x (s +:+ r).
Proof.
  revert s. induction (N.lt_wf_0 x) as [x _ IH]; intros s.
  destruct (decide (x = 0)) as [->|Hx]; [by rewrite !pretty_N_go_0|].
  rewrite (pretty_N_go_step x s), (pretty_N_go_step x (s +:+ r)) by lia.
  rewrite IH by (apply N.div_lt; lia). reflexivity.
Qed.

Lemma pretty_N_go_head (x : N) (s : string) :
  0 < x → ∃ c r, pretty_N_go x s = String c r ∧ isdigit c = true.
Proof.
  revert s. induction (N.lt_wf_0 x) as [x _ IH]; intros s Hx.
  rewrite pretty_N_go_step by done.
  destruct (decide (x `div` 10 = 0)) as [->|Hd].
  - rewrite pretty_N_go_0. eexists _, _. split; [done|].
    apply pretty_N_char_digit. by apply N.mod_lt.
  - apply IH; [apply N.div_lt; lia|by apply N.neq_0_lt_0].
Qed.

Lemma pretty_N_head (n : N) (s : string) :
  ∃ c r, pretty n +:+ s = String c r ∧ isdigit c = true.
Proof.
  unfold pretty, pretty_N. destruct (decide (n = 0)) as [->|Hn].
  - by exists "0"%char, s.
  - rewrite pretty_N_go_app. apply pretty_N_go_head. lia.
Qed.

Lemma read_digits_pretty_N_go (x : N) (s : string) :
  ∃ c, read_digits (pretty_N_go x s) 0 0 = read_digits s x c ∧
       (0 < x → c ≠ 0%nat).
Proof.
  revert s. induction (N.lt_wf_0 x) as [x _ IH]; intros s.
  destruct (decide (x = 0)) as [->|Hx].
  { exists 0%nat. rewrite pretty_N_go_0. split; [done|lia]. }
  rewrite pretty_N_go_step by lia.
  destruct (IH (x `div` 10) ltac:(apply N.div_lt; lia)
               (String (pretty_N_char (x `mod` 10)) s)) as (c & Hc & _).
  exists (S c). split; [|done]. rewrite Hc. cbn [read_digits].
  destruct (pretty_N_char_digit (x `mod` 10)) as [Hd Hv];
    [by apply N.mod_lt|].
  rewrite Hd, Hv. f_equal. pose proof (N.div_mod x 10). lia.
Qed.

(** [ISS >> x] reads back a number written in decimal. *)
Lemma extract_unsigned_pretty (n : N) (rest : string) :
  n < UINT_MOD →
  (∀ c r, rest = String c r → isdigit c = false) →
  extract_unsigned (pretty n +:+ rest) = Some (n, rest).
Proof.
  intros Hn Hrest.
  assert (Hrd : ∃ c, read_digits (pretty n +:+ rest) 0 0 = (n, c, rest) ∧
                     c ≠ 0%nat).
  { assert (Hstop : ∀ c, read_digits rest n c = (n, c, rest)).
    { intros c. destruct rest as [|a r]; [done|].
      cbn [read_digits]. by rewrite (Hrest a r). }
    unfold pretty, pretty_N. destruct (decide (n = 0)) as [->|Hn0].
    - exists 1%nat. split; [|done]. apply (Hstop 1%nat).
    - rewrite pretty_N_go_app.
      destruct (read_digits_pretty_N_go n (EmptyString +:+ rest))
        as (c & Hc & Hc0).
      exists c. split; [|apply Hc0; lia]. rewrite Hc. apply Hstop. }
  destruct Hrd as (cnt & Hrd & Hcnt).
  destruct (pretty_N_head n rest) as (c & r & Hhd & Hdig).
  destruct (isdigit_not_space c Hdig) as (Hsp & Hminus & Hplus & _).
  unfold extract_unsigned.
  assert (Hsk : skipws (pretty n +:+ rest) = pretty n +:+ rest).
  { rewrite Hhd. cbn [skipws]. by rewrite Hsp. }
  rewrite Hsk.
  assert (Hsign : match pretty n +:+ rest with
                  | String "-" r => (true, r)
                  | String "+" r => (false, r)
                  | _ => (false, pretty n +:+ rest)
                  end = (false, pretty n +:+ rest)).
  { rewrite Hhd.
    destruct c as [[] [] [] [] [] [] [] []]; try done. }
  rewrite Hsign, Hrd.
  rewrite decide_False by done. rewrite decide_False by lia. done.
Qed.

Lemma list_ascii_of_string_app (a b : string) :
  list_ascii_of_string (a +:+ b)
  = list_ascii_of_string a ++ list_ascii_of_string b.
Proof.
  induction a as [|c a IH]; [done|].
  exact (f_equal (cons c) IH).
Qed.

Lemma pretty_N_go_no_newline (x : N) (s : string) :
  ascii_of_nat 10 ∉ list_ascii_of_string s →
  ascii_of_nat 10 ∉ list_ascii_of_string (pretty_N_go x s).
Proof.
  revert s. induction (N.lt_wf_0 x) as [x _ IH]; intros s Hs.
  destruct (decide (x = 0)) as [->|Hx]; [by rewrite pretty_N_go_0|].
  rewrite pretty_N_go_step by lia. apply IH; [apply N.div_lt; lia|].
  cbn [list_ascii_of_string]. apply not_elem_of_cons. split; [|done].
  destruct (pretty_N_char_digit (x `mod` 10)) as [Hd _];
    [by apply N.mod_lt|].
  apply isdigit_not_space in Hd as (_ & _ & _ & Hd). congruence.
Qed.

Lemma pretty_N_no_newline (n : N) :
  ascii_of_nat 10 ∉ list_ascii_of_string (pretty n).
Proof.
  unfold pretty, pretty_N. destruct (decide (n = 0)).
  - vm_compute. intros H. apply list_elem_of_singleton in H. discriminate.
  - apply pretty_N_go_no_newline. apply not_elem_of_nil.
Qed.

Lemma numbers_no_newline (x y : N) :
  ascii_of_nat 10 ∉
    list_ascii_of_string (" " +:+ pretty x +:+ " " +:+ pretty y).
Proof.
  change (" " +:+ pretty x +:+ " " +:+ pretty y)
    with (String " " (pretty x +:+ String " " (pretty y))).
  cbn [list_ascii_of_string]. apply not_elem_of_cons. split; [done|].
  rewrite list_ascii_of_string_app. apply not_elem_of_app.
  split; [apply pretty_N_no_newline|].
  cbn [list_ascii_of_string]. apply not_elem_of_cons. split; [done|].
  apply pretty_N_no_newline.
Qed.

Lemma two_numbers_no_newline (c : ascii) (x y : N) :
  c ≠ ascii_of_nat 10 →
  ascii_of_nat 10 ∉
    list_ascii_of_string (String c (" " +:+ pretty x +:+ " " +:+ pretty y)).
Proof.
  intros Hc. cbn [list_ascii_of_string]. apply not_elem_of_cons.
  split; [done|]. apply numbers_no_newline.
Qed.

Lemma graph_lines_no_newline (m : N) (g : InputGraph) :
  Forall (λ l, ascii_of_nat 10 ∉ list_ascii_of_string l) (graph_lines m g).
Proof.
  unfold graph_lines. apply Forall_cons. split; [|apply Forall_app; split].
  - unfold header_line.
    change ("p " +:+ pretty (nodesNum g) +:+ " " +:+
            pretty m +:+ " " +:+
            pretty (entry g) +:+ " " +:+ pretty 0)
      with (String "p" (String " " (pretty (nodesNum g) +:+ String " "
             (pretty m +:+ " " +:+
              pretty (entry g) +:+ " " +:+ pretty 0)))).
    cbn [list_ascii_of_string]. apply not_elem_of_cons. split; [done|].
    apply not_elem_of_cons. split; [done|].
    rewrite list_ascii_of_string_app. apply not_elem_of_app.
    split; [apply pretty_N_no_newline|].
    cbn [list_ascii_of_string]. apply not_elem_of_cons. split; [done|].
    rewrite list_ascii_of_string_app. apply not_elem_of_app.
    split; [apply pretty_N_no_newline|].
    apply (numbers_no_newline (entry g) 0).
  - apply Forall_fmap, Forall_true. intros a.
    by apply (two_numbers_no_newline "a" a.1 a.2).
  - apply Forall_cons. split.
    + vm_compute. intros H. apply list_elem_of_singleton in H. discriminate.
    + apply Forall_fmap, Forall_true. intros u. unfold update_line. simpl.
      destruct (action u).
      * by apply (two_numbers_no_newline "i" (arc u).1 (arc u).2).
      * by apply (two_numbers_no_newline "d" (arc u).1 (arc u).2).
Qed.

Lemma getlines_unlines (ls : list string) :
  Forall (λ l, ascii_of_nat 10 ∉ list_ascii_of_string l) ls →
  getlines EmptyString (unlines ls) = ls.
Proof.
  induction 1 as [|l ls Hl _ IH]; [done|].
  cbn [unlines]. rewrite getlines_single by done.
  change (EmptyString +:+ l) with l. by rewrite IH.
Qed.

Lemma extract_unsigned_space (s : string) :
  extract_unsigned (" " +:+ s) = extract_unsigned s.
Proof. reflexivity. Qed.

Lemma space_not_digit (s c r : string) (a : ascii) :
  " " +:+ s = String a r → isdigit a = false.
Proof. by intros [= <- _]. Qed.

Lemma append_nil_r (s : string) : s +:+ EmptyString = s.
Proof. induction s as [|c s IH]; [done|]. exact (f_equal (String c) IH). Qed.

Lemma extract_unsigned_pretty_end (n : N) :
  n < UINT_MOD → extract_unsigned (pretty n) = Some (n, EmptyString).
Proof.
  intros Hn. pose proof (extract_unsigned_pretty n EmptyString Hn) as H.
  rewrite append_nil_r in H. by apply H.
Qed.

(** [ISS >> x >> y] on two numbers in decimal. *)
Lemma extract2_pretty (x y : N) :
  x < UINT_MOD → y < UINT_MOD →
  extract2 (" " +:+ pretty x +:+ " " +:+ pretty y) = Some (x, y).
Proof.
  intros Hx Hy. unfold extract2.
  rewrite extract_unsigned_space, extract_unsigned_pretty; [|done|].
  2:{ intros a r. by apply (space_not_digit (pretty y) EmptyString). }
  cbn [mbind option_bind]. rewrite extract_unsigned_space.
  by rewrite extract_unsigned_pretty_end.
Qed.

Lemma extract4_pretty (a b c d : N) :
  a < UINT_MOD → b < UINT_MOD → c < UINT_MOD → d < UINT_MOD →
  extract4 (" " +:+ pretty a +:+ " " +:+ pretty b +:+ " " +:+ pretty c
            +:+ " " +:+ pretty d) = Some (a, b, c, d).
Proof.
  intros Ha Hb Hc Hd. unfold extract4.
  rewrite extract_unsigned_space, extract_unsigned_pretty; [|done|].
  2:{ intros x r. by apply (space_not_digit _ EmptyString). }
  cbn [mbind option_bind].
  rewrite extract_unsigned_space, extract_unsigned_pretty; [|done|].
  2:{ intros x r. by apply (space_not_digit _ EmptyString). }
  cbn [mbind option_bind].
  rewrite extract_unsigned_space, extract_unsigned_pretty; [|done|].
  2:{ intros x r. by apply (space_not_digit _ EmptyString). }
  cbn [mbind option_bind]. rewrite extract_unsigned_space.
  by rewrite extract_unsigned_pretty_end.
Qed.

Lemma readLine_header (G : InputGraph) (n m e d : N) :
  nodesNum G = 0 →
  n < UINT_MOD → m < UINT_MOD → e < UINT_MOD → d < UINT_MOD →
  readLine G (header_line n m e d)
  = Returned {| nodesNum := n; entry := e; arcs := arcs G;
                updates := updates G; updateIdx := updateIdx G;
                cfg := cfg G |}.
Proof.
  intros H0 Hn Hm He Hd. unfold readLine, header_line.
  change (skipws ("p " +:+ pretty n +:+ " " +:+ pretty m +:+ " " +:+
                  pretty e +:+ " " +:+ pretty d))
    with (String "p" (" " +:+ pretty n +:+ " " +:+ pretty m +:+ " " +:+
                      pretty e +:+ " " +:+ pretty d)).
  cbv beta iota. rewrite decide_True by done. rewrite decide_True by done.
  by rewrite extract4_pretty.
Qed.

Lemma readLine_arc (G : InputGraph) (a : N * N) :
  a.1 < UINT_MOD → a.2 < UINT_MOD →
  readLine G (arc_line a)
  = Returned {| nodesNum := nodesNum G; entry := entry G;
                arcs := arcs G ++ [a];
                updates := updates G; updateIdx := updateIdx G;
                cfg := cfg G |}.
Proof.
  destruct a as [x y]. cbn [fst snd]. intros Hx Hy.
  unfold readLine, arc_line. cbn [fst snd].
  change (skipws ("a " +:+ pretty x +:+ " " +:+ pretty y))
    with (String "a" (" " +:+ pretty x +:+ " " +:+ pretty y)).
  cbv beta iota. rewrite decide_False by done. rewrite decide_True by done.
  by rewrite extract2_pretty.
Qed.

Lemma readLine_update (G : InputGraph) (u : Update) :
  (arc u).1 < UINT_MOD → (arc u).2 < UINT_MOD →
  readLine G (update_line u)
  = if decide ((arc u).1 ≤ nodesNum G) then
      if decide ((arc u).2 ≤ nodesNum G)
      then Returned (push_update G (action u) (arc u).1 (arc u).2)
      else Abort "y <= Graph.nodesNum"
    else Abort "x <= Graph.nodesNum".
Proof.
  destruct u as [o [x y]]. cbn [arc action fst snd]. intros Hx Hy.
  unfold readLine, update_line. cbn [arc action fst snd].
  destruct o.
  - change (skipws ("i " +:+ pretty x +:+ " " +:+ pretty y))
      with (String "i" (" " +:+ pretty x +:+ " " +:+ pretty y)).
    cbv beta iota. do 3 (rewrite decide_False by done). rewrite decide_True by done.
    unfold readUpdate. by rewrite extract2_pretty.
  - change (skipws ("d " +:+ pretty x +:+ " " +:+ pretty y))
      with (String "d" (" " +:+ pretty x +:+ " " +:+ pretty y)).
    cbv beta iota. do 4 (rewrite decide_False by done). rewrite decide_True by done.
    unfold readUpdate. by rewrite extract2_pretty.
Qed.

Lemma readLoop_arc_lines (G : InputGraph) (as' : list (N * N))
    (post : list string) :
  Forall (λ a, a.1 < UINT_MOD ∧ a.2 < UINT_MOD) as' →
  readLoop G ((arc_line <$> as') ++ post)
  = readLoop {| nodesNum := nodesNum G; entry := entry G;
                arcs := arcs G ++ as';
                updates := updates G; updateIdx := updateIdx G;
                cfg := cfg G |} post.
Proof.
  intros Has. revert G. induction Has as [|a as' [Ha1 Ha2] _ IH]; intros G.
  - rewrite app_nil_r. by destruct G.
  - pose proof (readLine_arc G a Ha1 Ha2) as Hl.
    rewrite fmap_cons. cbn [app readLoop].
    destruct (decide (arc_line a = EmptyString)) as [Heq|_].
    { by rewrite Heq in Hl. }
    rewrite Hl. cbn [mbind Outcome_bind]. rewrite IH. cbn.
    by rewrite <- app_assoc.
Qed.

Lemma readLoop_update_lines (G : InputGraph) (us : list Update) :
  Forall (λ u, (arc u).1 < UINT_MOD ∧ (arc u).2 < UINT_MOD) us →
  Forall (λ u, ((arc u).1 ≤ nodesNum G) ∧ ((arc u).2 ≤ nodesNum G)) us →
  readLoop G (update_line <$> us)
  = Returned {| nodesNum := nodesNum G; entry := entry G; arcs := arcs G;
                updates := updates G ++ us; updateIdx := updateIdx G;
                cfg := cfg G |}.
Proof.
  intros Hb. revert G.
  induction Hb as [|u us [Hu1 Hu2] _ IH]; intros G Hr.
  - rewrite app_nil_r. by destruct G.
  - apply Forall_cons in Hr as [[Hr1 Hr2] Hr].
    pose proof (readLine_update G u Hu1 Hu2) as Hl.
    rewrite !decide_True in Hl by done.
    rewrite fmap_cons. cbn [readLoop].
    destruct (decide (update_line u = EmptyString)) as [Heq|_].
    { by rewrite Heq in Hl. }
    rewrite Hl. cbn [mbind Outcome_bind]. rewrite IH by done.
    unfold push_update. cbn. rewrite <- app_assoc.
    by destruct u as [o [x y]].
Qed.

Lemma readFromFile_graph_lines (m : N) (g : InputGraph) :
  as_read g → m < UINT_MOD →
  readFromFile (Some (unlines (graph_lines m g))) = Returned (Some g).
Proof.
  intros (Hi & Hc & Hn & He & Ha & Hu) Hm.
  unfold readFromFile.
  rewrite getlines_unlines by apply graph_lines_no_newline.
  unfold graph_lines.
  pose proof (readLine_header InputGraph_init (nodesNum g) m (entry g) 0
                eq_refl Hn Hm He ltac:(done)) as Hl.
  cbn [readLoop].
  destruct (decide (header_line _ _ _ _ = EmptyString)) as [Heq|_].
  { by rewrite Heq in Hl. }
  rewrite Hl. cbn [mbind Outcome_bind].
  rewrite readLoop_arc_lines by done. cbn [readLoop].
  rewrite decide_False by done.
  change (readLine ?G "e") with (Returned G). cbn [mbind Outcome_bind].
  rewrite readLoop_update_lines.
  - cbn. destruct g. simpl in *. by subst.
  - eapply Forall_impl; [exact Hu|]. intros u [H1 H2]. cbn. lia.
  - done.
Qed.

(** X17. The graphs that [readFromFile] can return are exactly those in
    which no update is applied yet ([updateIdx] is 0), no CFG is built,
    every number is an [unsigned] value, and both ends of every update
    are at most [nodesNum] (0 is let through).  The ends of the arcs and
    the entry are not checked against [nodesNum]. *)
Theorem readFromFile_range (g : InputGraph) :
  (∃ file, readFromFile file = Returned (Some g)) ↔
  updateIdx g = 0%nat ∧ cfg g = None ∧
  nodesNum g < UINT_MOD ∧ entry g < UINT_MOD ∧
  Forall (λ a, a.1 < UINT_MOD ∧ a.2 < UINT_MOD) (arcs g) ∧
  Forall (λ u, ((arc u).1 ≤ nodesNum g) ∧ ((arc u).2 ≤ nodesNum g)) (updates g).
Proof.
  split.
  - intros [file Hf]. by eapply readFromFile_as_read.
  - intros Hg. exists (Some (unlines (graph_lines 0 g))).
    by apply readFromFile_graph_lines.
Qed.

(** X20. Reading back the text of a graph gives the graph: for a graph
    with [unsigned] numbers, fewer than [2^32] arcs and updates whose ends
    are at most [nodesNum], [readFromFile] on the problem line, the arc
    lines, the line [e] and the update lines, in decimal, returns that
    graph. *)
Theorem readFromFile_graph_text (g : InputGraph) :
  updateIdx g = 0%nat → cfg g = None →
  nodesNum g < UINT_MOD → entry g < UINT_MOD →
  N.of_nat (length (arcs g)) < UINT_MOD →
  Forall (λ a, a.1 < UINT_MOD ∧ a.2 < UINT_MOD) (arcs g) →
  Forall (λ u, ((arc u).1 ≤ nodesNum g) ∧ ((arc u).2 ≤ nodesNum g)) (updates g) →
  readFromFile (Some (graph_text g)) = Returned (Some g).
Proof.
  intros Hi Hc Hn He Hlen Ha Hu. by apply readFromFile_graph_lines.
Qed.

Lemma readFromFile_graph_text_witness :
  readFromFile (Some (graph_text input_tri)) = Returned (Some input_tri).
Proof.
  apply (readFromFile_graph_text input_tri); try reflexivity.
  - repeat (apply Forall_cons_2 || apply Forall_nil_2 || split);
      reflexivity.
  - repeat (apply Forall_cons_2 || apply Forall_nil_2 || split);
      vm_compute; discriminate.
Defined.

(** X21. An update line [i x y] or [d x y] in decimal is checked against
    the node count read so far: with both ends at most [nodesNum] the
    update is appended to [updates] and nothing else changes; otherwise
    the assertion on [x], or else the one on [y], ends the program. *)
Theorem readLine_update_checked (G : InputGraph) (u : Update) :
  (arc u).1 < UINT_MOD → (arc u).2 < UINT_MOD →
  readLine G (update_line u)
  = if decide ((arc u).1 ≤ nodesNum G) then
      if decide ((arc u).2 ≤ nodesNum G)
      then Returned {| nodesNum := nodesNum G; entry := entry G;
                       arcs := arcs G; updates := updates G ++ [u];
                       updateIdx := updateIdx G; cfg := cfg G |}
      else Abort "y <= Graph.nodesNum"
    else Abort "x <= Graph.nodesNum".
Proof.
  intros H1 H2. rewrite readLine_update by done.
  unfold push_update. by destruct u as [o [x y]].
Qed.

Lemma readLine_update_checked_witness :
  readLine input_tri (update_line {| action := Delete; arc := (2, 4) |})
  = if decide ((2, 4).1 ≤ nodesNum input_tri) then
      if decide ((2, 4).2 ≤ nodesNum input_tri)
      then Returned {| nodesNum := nodesNum input_tri;
                       entry := entry input_tri;
                       arcs := arcs input_tri;
                       updates := updates input_tri ++
                                  [{| action := Delete; arc := (2, 4) |}];
                       updateIdx := updateIdx input_tri;
                       cfg := cfg input_tri |}
      else Abort "y <= Graph.nodesNum"
    else Abort "x <= Graph.nodesNum".
Proof.
  apply (readLine_update_checked input_tri
           {| action := Delete; arc := (2, 4) |}); reflexivity.
Defined.

(** * Properties of [InputGraph::applyUpdate] and [NodeByName] *)


(** X23. [NodeByName] orders any two distinct blocks of the function, also
    two with equal names: where [compare_numeric] answers with opposite
    signs for swapped arguments, exactly one of [first < second] and
    [second < first] holds for [first ≠ second], and none for a block and
    itself. *)
Theorem NodeByName_total_on_blocks
    (compare_numeric : string → string → Z) (F : BlockStore)
    (first second : Node) :
  (∀ a b, compare_numeric b a = (- compare_numeric a b)%Z) →
  is_Some (F !! first) → is_Some (F !! second) →
  NodeByName compare_numeric F first first = Returned false ∧
  (first ≠ second →
   ∃ b, NodeByName compare_numeric F first second = Returned b ∧
        NodeByName compare_numeric F second first = Returned (negb b)).
Proof.
  intros Hanti [B1 H1] [B2 H2]. unfold NodeByName. rewrite H1, H2. split.
  - pose proof (Hanti (bbName B1) (bbName B1)).
    rewrite decide_True by lia. f_equal. apply bool_decide_eq_false. lia.
  - intros Hne. pose proof (Hanti (bbName B1) (bbName B2)) as Ha.
    destruct (decide (compare_numeric (bbName B1) (bbName B2) = 0%Z))
      as [H0|H0].
    + rewrite decide_True by lia. eexists. split; [done|]. f_equal.
      rewrite <- bool_decide_not. apply bool_decide_ext. lia.
    + rewrite decide_False by lia. eexists. split; [done|]. f_equal.
      rewrite <- bool_decide_not. apply bool_decide_ext. lia.
Qed.

Lemma NodeByName_total_on_blocks_witness :
  NodeByName (λ a b, Z.of_nat (String.length a) - Z.of_nat (String.length b))%Z
    G_tri 2 2 = Returned false ∧
  (2%positive ≠ 3%positive →
   ∃ b, NodeByName
          (λ a b, Z.of_nat (String.length a) - Z.of_nat (String.length b))%Z
          G_tri 2 3 = Returned b ∧
        NodeByName
          (λ a b, Z.of_nat (String.length a) - Z.of_nat (String.length b))%Z
          G_tri 3 2 = Returned (negb b)).
Proof.
  apply (NodeByName_total_on_blocks
           (λ a b, Z.of_nat (String.length a) - Z.of_nat (String.length b))%Z
           G_tri 2 3).
  - intros a b. lia.
  - vm_compute. eexists. reflexivity.
  - vm_compute. eexists. reflexivity.
Defined.

(** * Case values under [disconnect] and [connect] *)

Lemma removeCase_lookup (cs : list (N * Node)) (i : nat) (c : N * Node) :
  last cs = Some c → (i < length cs - 1)%nat →
  removeCase i cs !! i = Some c.
Proof.
  intros Hl Hi. unfold removeCase. rewrite Hl.
  rewrite lookup_take_lt by done. apply list_lookup_insert_eq. lia.
Qed.

Lemma switch_cases_last (cs : list Node) (x : Node) :
  last cs = Some x →
  last (imap (λ i c, (wrap (N.of_nat i), c)) cs)
  = Some (wrap (N.of_nat (length cs - 1)), x).
Proof.
  rewrite !last_lookup, length_imap, list_lookup_imap.
  replace (Init.Nat.pred (length cs)) with (length cs - 1)%nat by lia.
  by intros ->.
Qed.

Lemma disconnect_connect_case_values (F : BlockStore) (From To To' : Node)
    (B : BasicBlock) (pre post : list Node) :
  F !! From = Some B → bbTerm B = switch_of (pre ++ To :: post) →
  is_Some (F !! To) →
  To ∉ pre → post ≠ [] → (3 ≤ length (pre ++ To :: post))%nat →
  ∃ F1 F2 B2 SI2,
    disconnect From To F = Returned F1 ∧ connect From To' F1 = Returned F2 ∧
    F2 !! From = Some B2 ∧ bbTerm B2 = Some SI2 ∧
    ¬ NoDup ((Cases SI2).*1).
Proof.
  intros HB HT [BT HTo] Hpre Hpost Hlen.
  assert (Hgen : ∀ D (cs : list Node) (i : nat),
    (i < length cs - 1)%nat →
    disconnect From To F
    = Returned (<[From := set_term B
                   (Some {| DefaultDest := D;
                            Cases := removeCase i
                              (imap (λ i c, (wrap (N.of_nat i), c)) cs) |})]> F) →
    ∃ F1 F2 B2 SI2,
      disconnect From To F = Returned F1 ∧ connect From To' F1 = Returned F2 ∧
      F2 !! From = Some B2 ∧ bbTerm B2 = Some SI2 ∧
      ¬ NoDup ((Cases SI2).*1)).
  { intros D cs i Hi Hd.
    destruct (last cs) as [x|] eqn:Hlast.
    2:{ apply last_None in Hlast. subst cs. simpl in Hi. lia. }
    pose proof (switch_cases_last cs x Hlast) as Hl.
    pose proof (removeCase_lookup _ i _ Hl) as Hlk.
    rewrite length_imap in Hlk. specialize (Hlk Hi).
    eexists _, _, _, _. split; [exact Hd|].
    unfold connect. rewrite lookup_insert_eq. cbn [set_term bbTerm].
    split; [reflexivity|]. rewrite lookup_insert_eq.
    split; [reflexivity|]. cbn [set_term bbTerm]. split; [reflexivity|].
    cbn [Cases]. rewrite fmap_app, removeCase_length, length_imap.
    cbn [fmap list_fmap fst]. intros Hnd.
    apply NoDup_app in Hnd as (_ & Hnd & _).
    apply (Hnd (wrap (N.of_nat (length cs - 1)))).
    - apply list_elem_of_fmap. eexists. split; [|by eapply list_elem_of_lookup_2].
      done.
    - apply list_elem_of_here. }
  unfold disconnect in *. rewrite HB, HTo, HT in *.
  destruct pre as [|d pre'].
  - cbn [app switch_of] in *.
    destruct post as [|c1 [|c2 cs]]; [done|simpl in Hlen; lia|].
    apply (Hgen c1 (c1 :: c2 :: cs) 0%nat); [simpl; lia|].
    cbn [imap Cases DefaultDest]. by rewrite decide_True.
  - cbn [app switch_of] in *. apply not_elem_of_cons in Hpre as [Hd Hpre].
    set (cs := pre' ++ To :: post) in *.
    assert (Hfind : list_find (λ c : N * Node, c.2 = To)
                      (imap (λ i c, (wrap (N.of_nat i), c)) cs)
                    = Some (length pre', (wrap (N.of_nat (length pre')), To))).
    { apply list_find_Some. split; [|split; [done|]].
      - rewrite list_lookup_imap. unfold cs.
        by rewrite list_lookup_middle.
      - intros j y Hj Hlt Hy. rewrite list_lookup_imap in Hj.
        unfold cs in Hj. rewrite lookup_app_l in Hj by done.
        destruct (pre' !! j) as [z|] eqn:Hz; [|done].
        simpl in Hj. injection Hj as <-. simpl in Hy. subst z.
        apply Hpre. by eapply list_elem_of_lookup_2. }
    apply (Hgen d cs (length pre')).
    + unfold cs. rewrite length_app. simpl.
      destruct post; [done|]. simpl. lia.
    + cbn [Cases DefaultDest].
      destruct (imap (λ i c, (wrap (N.of_nat i), c)) cs) as [|FirstC rest]
        eqn:Him.
      { apply (f_equal length) in Him. rewrite length_imap in Him.
        unfold cs in Him. rewrite length_app in Him. simpl in Him. lia. }
      rewrite decide_False by done. by rewrite Hfind.
Qed.

(** X24. [disconnect] and [connect] do not keep the case values of a
    switch distinct.  On a switch as [toCFG] builds it (case values
    [0, 1, ...]) with at least three successors, deleting an arc that is
    not the last successor moves the last case, with its value, into the
    gap; the next [connect] numbers its new case with the count of cases,
    which is that value again: two cases of the switch have the same
    value. *)
Theorem disconnect_connect_repeats_case_value (F : BlockStore)
    (From To To' : Node) (B : BasicBlock) (pre post : list Node) :
  F !! From = Some B → bbTerm B = switch_of (pre ++ To :: post) →
  is_Some (F !! To) →
  To ∉ pre → post ≠ [] → (3 ≤ length (pre ++ To :: post))%nat →
  ∃ F1 F2 B2 SI2,
    disconnect From To F = Returned F1 ∧ connect From To' F1 = Returned F2 ∧
    F2 !! From = Some B2 ∧ bbTerm B2 = Some SI2 ∧
    ¬ NoDup ((Cases SI2).*1).
Proof. apply disconnect_connect_case_values. Qed.

Lemma disconnect_connect_repeats_case_value_witness :
  ∃ F1 F2 B2 SI2,
    disconnect 1 3 G_fan = Returned F1 ∧ connect 1 3 F1 = Returned F2 ∧
    F2 !! 1%positive = Some B2 ∧ bbTerm B2 = Some SI2 ∧
    ¬ NoDup ((Cases SI2).*1).
Proof.
  apply (disconnect_connect_repeats_case_value G_fan 1 3 3
           {| bbName := "n_1"; bbTerm := switch_of [2; 3; 4]%positive |}
           [2%positive] [4%positive]).
  - vm_compute. reflexivity.
  - reflexivity.
  - vm_compute. eexists. reflexivity.
  - intros H. apply list_elem_of_singleton in H. discriminate.
  - discriminate.
  - simpl. lia.
Defined.

Lemma block_name_inj (entry k k' : N) :
  block_name entry k = block_name entry k' → k = k'.
Proof.
  unfold block_name.
  destruct (decide (k = entry)) as [->|Hk],
           (decide (k' = entry)) as [->|Hk']; [done| | |];
    intros H; cbv [MakeName String.append] in H.
  - discriminate.
  - discriminate.
  - injection H as H. by apply (inj pretty).
Qed.

(** X25. The blocks that [toCFG] makes have pairwise distinct names, so
    that [BasicBlock::Create] renames none of them: two blocks of the
    built function with the same name are the same block. *)
Theorem toCFG_block_names_distinct (g g' : InputGraph) (EntryBB : Node)
    (C : GraphCFG) :
  wf_input g → toCFG g = Returned (EntryBB, g') → cfg g' = Some C →
  ∀ h h' B B', function C !! h = Some B → function C !! h' = Some B' →
    bbName B = bbName B' → h = h'.
Proof.
  intros Hwf Hto HC h h' B B' Hh Hh' Hname.
  destruct (toCFG_spec g Hwf) as (E & F & M & Hto' & _ & _ & _ & HCon).
  rewrite Hto in Hto'. injection Hto' as -> ->. simpl in HC.
  injection HC as <-. simpl in *. destruct HCon as [Hstore Himg].
  destruct (Himg h ltac:(by eexists)) as [k Hk].
  destruct (Himg h' ltac:(by eexists)) as [k' Hk'].
  pose proof (Hstore k h Hk) as H1. pose proof (Hstore k' h' Hk') as H2.
  rewrite Hh in H1. rewrite Hh' in H2.
  injection H1 as ->. injection H2 as ->. simpl in Hname.
  apply block_name_inj in Hname. subst k'. congruence.
Qed.

Lemma toCFG_block_names_distinct_witness :
  ∃ EntryBB g' C,
    toCFG input_tri = Returned (EntryBB, g') ∧ cfg g' = Some C ∧
    ∀ h h' B B', function C !! h = Some B → function C !! h' = Some B' →
      bbName B = bbName B' → h = h'.
Proof.
  destruct (toCFG input_tri) as [[EntryBB g']| |] eqn:Hto;
    [|vm_compute in Hto; discriminate..].
  destruct (cfg g') as [C|] eqn:HC;
    [|vm_compute in Hto; injection Hto as <- <-; discriminate].
  exists EntryBB, g', C. split; [done|]. split; [done|].
  apply (toCFG_block_names_distinct input_tri g' EntryBB C);
    [|done|done].
  split; [vm_compute; split; discriminate|].
  split; [vm_compute; reflexivity|].
  repeat constructor; vm_compute; discriminate.
Defined.

(** * The comparator [DecreasingLevel] *)

(** X26. [DecreasingLevel] is a strict weak ordering of the pairs, as
    [std::priority_queue] asks of its comparator: it is irreflexive and
    transitive, and being unordered both ways (which is having the same
    level) is transitive.  An element is ordered before no element of a
    list exactly when its level is the least of the list. *)
Theorem DecreasingLevel_strict_weak_order :
  (∀ a, DecreasingLevel a a = false) ∧
  (∀ a b c, DecreasingLevel a b = true → DecreasingLevel b c = true →
            DecreasingLevel a c = true) ∧
  (∀ a b, DecreasingLevel a b = false ∧ DecreasingLevel b a = false ↔
          a.1 = b.1) ∧
  (∀ a (l : list (N * Node)),
     (∀ b, b ∈ l → DecreasingLevel a b = false) ↔ (∀ b, b ∈ l → a.1 ≤ b.1)).
Proof.
  unfold DecreasingLevel. split; [|split; [|split]].
  - intros a. apply bool_decide_eq_false. lia.
  - intros a b c H1 H2. apply bool_decide_eq_true in H1, H2.
    apply bool_decide_eq_true. lia.
  - intros a b. rewrite !bool_decide_eq_false. lia.
  - intros a l. split; intros H b Hb; specialize (H b Hb).
    + apply bool_decide_eq_false in H. lia.
    + apply bool_decide_eq_false. lia.
Qed.
